(** * Patricia trie (ys::PatriciaTrie): shallow embedding and properties

    The embedding follows the refined header of the repository, the one
    that the sample command is written against: the root table consumes
    the first symbol of a key and every child is keyed by the symbol that
    follows its parent's edge.  The other header is the earlier iteration
    of the same design.

    - A key [const K_* key, L_ length] is a [list K]; [key + n] is
      [drop n key], [key[i]] is [key !!! i] and [length] is [length key].
    - [std::unordered_map<K_, Node*>] is a [gmap K Node]; the pointer [c_],
      which may be null, is an [option].
    - The edge buffer [d_] together with its length [l_] is a [list K].
    - Values (an unsigned integer type) are [Z]; [INVALID] is the template
      parameter of the same name; the conversion of [false] to a value is 0.
    - Methods that mutate the receiver return the new receiver.
    - What a read through a pointer to released storage returns is a
      parameter, [released]. *)

From Stdlib Require Import ZArith Lia Ascii.
From Equations Require Import Equations.
From Equations.Prop Require Import Logic.
From stdpp Require Import gmap list fin_maps strings.

Section PatriciaTrie.

Context {K : Type} `{Countable K} `{Inhabited K}.

(** Template parameter [INVALID] (by default [~(VTYPE)0]). *)
Variable INVALID : Z.

Abbreviation V_ := Z (only parsing).

(** ** Node *)

#[warnings="-register-all"]
Inductive Node : Type :=
  mkNode (c_ : option (gmap K Node)) (d_ : list K) (v_ : V_).

Definition c_ (n : Node) : option (gmap K Node) :=
  match n with mkNode c _ _ => c end.
Definition d_ (n : Node) : list K :=
  match n with mkNode _ d _ => d end.
Definition v_ (n : Node) : V_ :=
  match n with mkNode _ _ v => v end.
Definition l_ (n : Node) : nat := length (d_ n).

(** Constructor [Node(key, length, value)]: no child table, the edge is a
    copy of the first [length] symbols of [key] (the caller passes
    [take length key]). *)
Definition Node_new (key : list K) (value : V_) : Node :=
  mkNode None key value.

(** [std::memcmp(d_, key, sizeof(K_) * l_) != 0]. *)
Definition memcmp_ne (d key : list K) (n : nat) : bool :=
  negb (bool_decide (take n d = take n key)).

(** The index [i] at which the comparison loop of [Add] stops:
    [i = 0; while (i < min(l_, length)) { if (d_[i] != key[i]) break; ++i; }] *)
Fixpoint mismatch (d key : list K) : nat :=
  match d, key with
  | x :: d', y :: key' => if decide (x = y) then S (mismatch d' key') else 0
  | _, _ => 0
  end.

(** [Node::get_value]. *)
Equations? Node_get_value (n : Node) (key : list K) : V_
  by wf (length key) lt :=
Node_get_value (mkNode c d v) key with inspect (length key <? length d) := {
  | exist _ true _ => INVALID
  | exist _ false Hlen with memcmp_ne d key (length d) := {
    | true => INVALID
    | false with inspect (length key =? length d) := {
      | exist _ true _ => v
      | exist _ false Hne with c := {
        | None => INVALID
        | Some m with m !! (key !!! length d) := {
          | None => INVALID
          | Some ch => Node_get_value ch (drop (S (length d)) key) }}}}}.
Proof.
  rewrite length_drop. apply Nat.ltb_ge in Hlen. apply Nat.eqb_neq in Hne. lia.
Qed.

(** [Node::remove_key]: the returned pair is the result and the node after
    the call.  A child that is reached through the table is updated in
    place, so the table maps the same symbol to the child after the call. *)
Equations? Node_remove_key (n : Node) (key : list K) : V_ * Node
  by wf (length key) lt :=
Node_remove_key (mkNode c d v) key with inspect (length key <? length d) := {
  | exist _ true _ => (INVALID, mkNode c d v)
  | exist _ false Hlen with memcmp_ne d key (length d) := {
    | true => (INVALID, mkNode c d v)
    | false with inspect (length key =? length d) := {
      | exist _ true _ => (v, mkNode c d INVALID)
      | exist _ false Hne with c := {
        | None => (INVALID, mkNode None d v)
        | Some m with m !! (key !!! length d) := {
          | None => (INVALID, mkNode (Some m) d v)
          | Some ch =>
              let r := Node_remove_key ch (drop (S (length d)) key) in
              (r.1, mkNode (Some (<[key !!! length d := r.2]> m)) d v) }}}}}.
Proof.
  rewrite length_drop. apply Nat.ltb_ge in Hlen. apply Nat.eqb_neq in Hne. lia.
Qed.

(** [if (v_ != I_) values.push_back(v_);] *)
Definition push_valid (v : V_) (values : list V_) : list V_ :=
  if decide (v ≠ INVALID) then values ++ [v] else values.

(** [Node::get_values]: [values] is the output vector, returned after the
    call. *)
Equations? Node_get_values (n : Node) (buffer : list K) (values : list V_)
  : list V_ by wf (length buffer) lt :=
Node_get_values (mkNode c d v) buffer values
  with inspect (length buffer <? length d) := {
  | exist _ true _ => values
  | exist _ false Hlen with memcmp_ne d buffer (length d) := {
    | true => values
    | false with inspect (length d <? length buffer) := {
      | exist _ false _ => push_valid v values
      | exist _ true Hlt with c := {
        | None => push_valid v values
        | Some m with m !! (buffer !!! length d) := {
          | None => push_valid v values
          | Some ch =>
              Node_get_values ch (drop (S (length d)) buffer)
                (push_valid v values) }}}}}.
Proof.
  rewrite length_drop. apply Nat.ltb_lt in Hlt. lia.
Qed.

(** Released storage that still reads as it did before the release. *)
Definition intact (d : list K) (j : nat) : K := d !!! j.

(** [released d j] is the symbol read at index [j] through a pointer to a
    buffer that held [d] and has been released with [delete []].  The
    language does not define it; [intact] is one possible behaviour. *)
Variable released : list K → nat → K.

(** [cut_head(length)]: [l_ -= length], the buffer [d_] is released, and
    when [0 < l_] a new buffer of [l_] symbols is filled by
    [memcpy(d, d_ + length, sizeof(K_) * l_)], where [d_] still points to
    the released buffer; otherwise [d_] is null. *)
Definition cut_head (n : Node) (len : nat) : Node :=
  match n with
  | mkNode c d v =>
      let l := length d - len in
      mkNode c
        (if 0 <? l then (λ j, released d (len + j)) <$> seq 0 l else [])
        v
  end.

(** The child pointer that [Add] looks up before it recurses:
    null when [c_] is null or has no entry for [k], the entry otherwise. *)
Definition find_child (c : option (gmap K Node)) (k : K) : option Node :=
  match c with Some m => m !! k | None => None end.

(** The table that [Add] writes the child into: the existing one, or a new
    empty one when [c_] is null. *)
Definition child_table (c : option (gmap K Node)) : gmap K Node :=
  match c with Some m => m | None => ∅ end.

(** [Node::Add]: [node] is the possibly null pointer argument. *)
Equations? Node_Add (node : option Node) (key : list K) (value : V_) : Node
  by wf (length key) lt :=
Node_Add None key value := Node_new key value;
Node_Add (Some (mkNode c d v)) key value
  with inspect (mismatch d key <? Nat.min (length d) (length key)) := {
  | exist _ true _ =>
      let i := mismatch d key in
      let p := Node_new (take i key) INVALID in
      let pc := <[d !!! i := cut_head (mkNode c d v) (S i)]> ∅ in
      let pc := <[key !!! i := Node_new (drop (S i) key) value]> pc in
      mkNode (Some pc) (d_ p) (v_ p)
  | exist _ false _ with inspect (length d <? length key) := {
    | exist _ true Hlt =>
        let i := mismatch d key in
        let ch := find_child c (key !!! i) in
        let m := child_table c in
        mkNode (Some (<[key !!! i := Node_Add ch (drop (S i) key) value]> m)) d v
    | exist _ false _ with inspect (length key <? length d) := {
      | exist _ true _ =>
          let i := mismatch d key in
          let p := Node_new (take (length key) key) value in
          let pc := <[d !!! i := cut_head (mkNode c d v) (S i)]> ∅ in
          mkNode (Some pc) (d_ p) (v_ p)
      | exist _ false _ => mkNode c d value }}}.
Proof.
  rewrite length_drop. apply Nat.ltb_lt in Hlt. lia.
Qed.

(** ** PatriciaTrie *)

Record PatriciaTrie : Type := mkTrie { head_ : gmap K Node }.

Definition empty_trie : PatriciaTrie := mkTrie ∅.

(** [PatriciaTrie::add_key]. *)
Definition add_key (t : PatriciaTrie) (key : list K) (value : V_)
  : PatriciaTrie :=
  let node := head_ t !! (key !!! 0) in
  mkTrie (<[key !!! 0 := Node_Add node (drop 1 key) value]> (head_ t)).

(** [PatriciaTrie::remove_key]; [return false] yields the value 0. *)
Definition remove_key (t : PatriciaTrie) (key : list K)
  : V_ * PatriciaTrie :=
  match head_ t !! (key !!! 0) with
  | None => (0%Z, t)
  | Some n =>
      let r := Node_remove_key n (drop 1 key) in
      (r.1, mkTrie (<[key !!! 0 := r.2]> (head_ t)))
  end.

(** [PatriciaTrie::get_value]; [return false] yields the value 0. *)
Definition get_value (t : PatriciaTrie) (key : list K) : V_ :=
  match head_ t !! (key !!! 0) with
  | None => 0%Z
  | Some n => Node_get_value n (drop 1 key)
  end.

(** [PatriciaTrie::get_values]. *)
Definition get_values (t : PatriciaTrie) (buffer : list K)
    (values : list V_) : list V_ :=
  match head_ t !! (buffer !!! 0) with
  | None => values
  | Some n => Node_get_values n (drop 1 buffer) values
  end.

(** [PatriciaTrie::find_key]. *)
Definition find_key (t : PatriciaTrie) (key : list K) : bool :=
  negb (Z.eqb (get_value t key) INVALID).

(** ** Notions used to state the properties *)

(** The structure of a subtree without its terminal values: the edge label
    of every node and, under every symbol, the structure of the child. *)
#[warnings="-register-all"]
Inductive Shape : Type :=
  mkShape (sc_ : option (gmap K Shape)) (sd_ : list K).

Fixpoint shape_of (n : Node) : Shape :=
  match n with
  | mkNode c d _ =>
      mkShape (match c with
               | Some m => Some (shape_of <$> m)
               | None => None
               end) d
  end.

Definition trie_shape (t : PatriciaTrie) : gmap K Shape :=
  shape_of <$> head_ t.

(** A value read as "present" unless it is the sentinel. *)
Definition valid (v : V_) : option V_ :=
  if decide (v = INVALID) then None else Some v.

(** The value that the trie holds for [key], if any: the root table has a
    subtree for the first symbol and the walk through it ends on a terminal
    node. *)
Definition stored (t : PatriciaTrie) (key : list K) : option V_ :=
  match head_ t !! (key !!! 0) with
  | Some n => valid (Node_get_value n (drop 1 key))
  | None => None
  end.

(** All prefixes of a sequence, the shortest first. *)
Fixpoint prefixes (q : list K) : list (list K) :=
  [] :: match q with
        | [] => []
        | x :: q' => (x ::.) <$> prefixes q'
        end.

(** Histories of calls on a trie that starts empty. *)
Inductive op : Type :=
  | OpAdd (key : list K) (value : V_)
  | OpRemove (key : list K).

(** The preconditions that the entry points assert. *)
Definition op_ok (o : op) : Prop :=
  match o with
  | OpAdd key value => key ≠ [] ∧ value ≠ INVALID
  | OpRemove key => key ≠ []
  end.

Definition apply_op (t : PatriciaTrie) (o : op) : PatriciaTrie :=
  match o with
  | OpAdd key value => add_key t key value
  | OpRemove key => (remove_key t key).2
  end.

Definition run (ops : list op) : PatriciaTrie := foldl apply_op empty_trie ops.

(** The keys inserted and not removed since, with the value of their latest
    insertion. *)
Definition record_op (m : gmap (list K) V_) (o : op) : gmap (list K) V_ :=
  match o with
  | OpAdd key value => <[key := value]> m
  | OpRemove key => delete key m
  end.

Definition contents (ops : list op) : gmap (list K) V_ :=
  foldl record_op ∅ ops.

(** Lookup through a possibly null node pointer. *)
Definition Node_lookup (on : option Node) (key : list K) : V_ :=
  match on with Some n => Node_get_value n key | None => INVALID end.

(** The four ways in which the key handed to [Add] relates to the edge of
    the node: they part at a symbol, the key runs past the edge, the key
    ends inside the edge, or they are equal. *)
Variant edge_view : list K → list K → Prop :=
  | ev_split p x d' y key' :
      x ≠ y → edge_view (p ++ x :: d') (p ++ y :: key')
  | ev_longer d y key' : edge_view d (d ++ y :: key')
  | ev_shorter key x d' : edge_view (key ++ x :: d') key
  | ev_same d : edge_view d d.

(** Every node of the subtree is terminal or has at least two children. *)
Fixpoint compactb (n : Node) : bool :=
  match n with
  | mkNode c d v =>
      (negb (v =? INVALID)%Z || (2 <=? size (child_table c)))
      && match c with
         | Some m => bool_decide (map_Forall (λ _ b, b = true) (compactb <$> m))
         | None => true
         end
  end.

Definition trie_compactb (t : PatriciaTrie) : bool :=
  bool_decide (map_Forall (λ _ b, b = true) (compactb <$> head_ t)).

(** A history made of insertions only. *)
Definition additions (kvs : list (list K * V_)) : list op :=
  (λ kv, OpAdd kv.1 kv.2) <$> kvs.

(** The sum of the numbers in a table. *)
Definition table_sum (m : gmap K nat) : nat :=
  map_fold (λ _ x acc, x + acc) 0 m.

(** The number of nodes of a subtree, one for each [new Node] that is still
    part of it. *)
Fixpoint node_count (n : Node) : nat :=
  match n with
  | mkNode c _ _ =>
      S (match c with
         | Some m => table_sum (node_count <$> m)
         | None => 0
         end)
  end.

Definition trie_node_count (t : PatriciaTrie) : nat :=
  table_sum (node_count <$> head_ t).

End PatriciaTrie.

(** * The first header

    [src/patricia_trie.hpp], the earlier iteration: a node's edge begins with
    the symbol the node is filed under, the methods take the whole remaining
    key and compare it with the edge from index 1 on, the table [c_] is a
    member and not a pointer, and the sentinel [INV_] is [~(N_)0].

    A method that finds a child in the table and calls itself on it is
    written as the lookup, under the same symbol, in the table of what the
    calls on the children return; the recursion is then structural on the
    node, also for a node whose edge would be empty. *)

Module V1.
Section FirstHeader.

Context {K : Type} `{Countable K} `{Inhabited K}.

(** The number of bits of the value type [N_]. *)
Variable bits : Z.

(** [static const N_ INV_ = ~(N_)0]. *)
Definition INV_ : Z := Z.ones bits.

#[warnings="-register-all"]
Inductive Node : Type :=
  mkNode (d_ : list K) (v_ : Z) (c_ : gmap K Node).

Definition d_ (n : Node) : list K := match n with mkNode d _ _ => d end.
Definition v_ (n : Node) : Z := match n with mkNode _ v _ => v end.
Definition c_ (n : Node) : gmap K Node := match n with mkNode _ _ c => c end.

(** Constructor [Node(key, length, value)]; the caller passes
    [take length key]. *)
Definition Node_new (key : list K) (value : Z) : Node := mkNode key value ∅.

(** [cut_head(length)]: the tail of the edge is copied into a new buffer
    and the old buffer is released afterwards. *)
Definition cut_head (n : Node) (len : nat) : Node :=
  match n with mkNode d v c => mkNode (drop len d) v c end.

(** [for (N_ i(1); i < l_; ++i) { if (d_[i] != key[i]) return INV_; }]:
    true when the loop returns. *)
Definition tail_ne (d key : list K) (l : nat) : bool :=
  negb (bool_decide (drop 1 (take l d) = drop 1 (take l key))).

(** The index at which the comparison loop of [Add] stops:
    [i = 1; while (i < min(l_, length)) { if (d_[i] != key[i]) break; ++i; }] *)
Definition mismatch1 (d key : list K) : nat :=
  S (mismatch (drop 1 d) (drop 1 key)).

(** [Node::get_value]. *)
Fixpoint Node_get_value (n : Node) (key : list K) : Z :=
  match n with
  | mkNode d v c =>
      if length key <? length d then INV_
      else if tail_ne d key (length d) then INV_
      else if length key =? length d then v
      else match ((λ ch, Node_get_value ch (drop (length d) key)) <$> c)
                   !! (key !!! length d) with
           | None => INV_
           | Some r => r
           end
  end.

(** [Node::remove_key]: the result and the node after the call. *)
Fixpoint Node_remove_key (n : Node) (key : list K) : Z * Node :=
  match n with
  | mkNode d v c =>
      if length key <? length d then (INV_, mkNode d v c)
      else if tail_ne d key (length d) then (INV_, mkNode d v c)
      else if length key =? length d then (v, mkNode d INV_ c)
      else match ((λ ch, Node_remove_key ch (drop (length d) key)) <$> c)
                   !! (key !!! length d) with
           | None => (INV_, mkNode d v c)
           | Some r => (r.1, mkNode d v (<[key !!! length d := r.2]> c))
           end
  end.

(** [Node::get_values]; the symbols of the edge are not compared with the
    buffer. *)
Fixpoint Node_get_values (n : Node) (buffer : list K) (values : list Z)
  : list Z :=
  match n with
  | mkNode d v c =>
      if length buffer <? length d then values
      else
        let values := push_valid INV_ v values in
        if length d <? length buffer then
          match ((λ ch, Node_get_values ch (drop (length d) buffer)) <$> c)
                  !! (buffer !!! length d) with
          | Some rest => rest values
          | None => values
          end
        else values
  end.

(** [Node::Add] on a non-null node. *)
Fixpoint Node_Add_to (n : Node) (key : list K) (value : Z) : Node :=
  match n with
  | mkNode d v c =>
      let i := mismatch1 d key in
      if i <? Nat.min (length d) (length key) then
        let p := Node_new (take i key) INV_ in
        let pc := <[d !!! i := cut_head (mkNode d v c) i]> (c_ p) in
        let pc := <[key !!! i := Node_new (drop i key) value]> pc in
        mkNode (d_ p) (v_ p) pc
      else if length d <? length key then
        let ch :=
          match ((λ ch, Node_Add_to ch (drop i key) value) <$> c)
                  !! (key !!! i) with
          | Some r => r
          | None => Node_new (drop i key) value
          end in
        mkNode d v (<[key !!! i := ch]> c)
      else if length key <? length d then
        let p := Node_new (take (length key) key) value in
        mkNode (d_ p) (v_ p) (<[d !!! i := cut_head (mkNode d v c) i]> (c_ p))
      else mkNode d value c
  end.

(** [Node::Add]: [node] is the possibly null pointer argument. *)
Definition Node_Add (node : option Node) (key : list K) (value : Z) : Node :=
  match node with
  | Some n => Node_Add_to n key value
  | None => Node_new key value
  end.

(** Lookup through a possibly null node pointer. *)
Definition Node_lookup (on : option Node) (key : list K) : Z :=
  match on with Some n => Node_get_value n key | None => INV_ end.

Record PatriciaTrie : Type := mkTrie { head_ : gmap K Node }.

Definition empty_trie : PatriciaTrie := mkTrie ∅.

(** [PatriciaTrie::add_key]: the whole key goes to [Add]. *)
Definition add_key (t : PatriciaTrie) (key : list K) (value : Z)
  : PatriciaTrie :=
  let node := head_ t !! (key !!! 0) in
  mkTrie (<[key !!! 0 := Node_Add node key value]> (head_ t)).

(** [PatriciaTrie::remove_key]; [return false] yields the value 0. *)
Definition remove_key (t : PatriciaTrie) (key : list K) : Z * PatriciaTrie :=
  match head_ t !! (key !!! 0) with
  | None => (0%Z, t)
  | Some n =>
      let r := Node_remove_key n key in
      (r.1, mkTrie (<[key !!! 0 := r.2]> (head_ t)))
  end.

(** [PatriciaTrie::get_value]; [return false] yields the value 0. *)
Definition get_value (t : PatriciaTrie) (key : list K) : Z :=
  match head_ t !! (key !!! 0) with
  | None => 0%Z
  | Some n => Node_get_value n key
  end.

(** [PatriciaTrie::get_values]. *)
Definition get_values (t : PatriciaTrie) (buffer : list K) (values : list Z)
  : list Z :=
  match head_ t !! (buffer !!! 0) with
  | None => values
  | Some n => Node_get_values n buffer values
  end.

(** [PatriciaTrie::find_key]. *)
Definition find_key (t : PatriciaTrie) (key : list K) : bool :=
  negb (Z.eqb (get_value t key) INV_).

(** What the constructor and the methods assert of a node: its edge is not
    empty and begins with the symbol the node is filed under; and so for
    every node below it. *)
Inductive filed : K → Node → Prop :=
  | filed_node z d v c :
      (∀ k ch, c !! k = Some ch → filed k ch) →
      filed z (mkNode (z :: d) v c).

Definition trie_filed (t : PatriciaTrie) : Prop :=
  ∀ a n, head_ t !! a = Some n → filed a n.

(** The value that the trie holds for [key], if any. *)
Definition stored (t : PatriciaTrie) (key : list K) : option Z :=
  match head_ t !! (key !!! 0) with
  | Some n => valid INV_ (Node_get_value n key)
  | None => None
  end.

Definition apply_op (t : PatriciaTrie) (o : op) : PatriciaTrie :=
  match o with
  | OpAdd key value => add_key t key value
  | OpRemove key => (remove_key t key).2
  end.

Definition run (ops : list op) : PatriciaTrie := foldl apply_op empty_trie ops.

End FirstHeader.
End V1.

(** ** The instance of the sample command

    [ys::PatriciaTrie<char, unsigned int, unsigned int>]: symbols are
    8-bit characters, values are 32-bit unsigned integers and the sentinel is
    the default [~(unsigned int)0]. *)

Abbreviation char := Ascii.ascii (only parsing).

#[export] Instance char_inhabited : Inhabited char := populate Ascii.zero.

Definition INVALID_uint : Z := Z.land (Z.lnot 0) (Z.ones 32).

Definition uint_trie : Type := PatriciaTrie (K := char).

Definition key_of (s : string) : list char := String.list_ascii_of_string s.

(** The scenario of the specification: "go", "gopher" and "golf". *)
Definition go_history : list (op (K := char)) :=
  [OpAdd (key_of "go") 1; OpAdd (key_of "gopher") 2; OpAdd (key_of "golf") 3].

Definition go_trie : uint_trie := run INVALID_uint intact go_history.

(** The same keys in another order: "golf" arrives while "gopher" is alone
    under "g", so that [Add] splits the edge "opher" and calls [cut_head];
    "go" then ends on the branch node. *)
Definition split_history : list (op (K := char)) :=
  [OpAdd (key_of "gopher") 2; OpAdd (key_of "golf") 3; OpAdd (key_of "go") 1].

(** An allocator that overwrites storage with zeros when it is released. *)
Definition clobbered (d : list char) (j : nat) : char := Ascii.zero.

(** A node with the edge "opher" and the value 2, as [Add] finds it under
    the root symbol "g" when "golf" is inserted after "gopher". *)
Definition opher_node : Node (K := char) := mkNode None (key_of "opher") 2.

(** * Properties *)

Section Properties.

Context {K : Type} `{Countable K} `{Inhabited K}.
Variable INVALID : Z.
Variable released : list K → nat → K.

Local Abbreviation Node_get_value := (Node_get_value (K := K) INVALID).
Local Abbreviation Node_remove_key := (Node_remove_key (K := K) INVALID).
Local Abbreviation push_valid := (push_valid INVALID).
Local Abbreviation Node_get_values := (Node_get_values (K := K) INVALID).
Local Abbreviation Node_Add := (Node_Add (K := K) INVALID released).
Local Abbreviation Node_lookup := (Node_lookup (K := K) INVALID).
Local Abbreviation add_key := (add_key (K := K) INVALID released).
Local Abbreviation remove_key := (remove_key (K := K) INVALID).
Local Abbreviation get_value := (get_value (K := K) INVALID).
Local Abbreviation get_values := (get_values (K := K) INVALID).
Local Abbreviation find_key := (find_key (K := K) INVALID).
Local Abbreviation stored := (stored (K := K) INVALID).
Local Abbreviation op_ok := (op_ok (K := K) INVALID).
Local Abbreviation apply_op := (apply_op (K := K) INVALID released).
Local Abbreviation run := (run (K := K) INVALID released).
Local Abbreviation valid := (valid INVALID).
Local Abbreviation mkNode := (mkNode (K := K)).
Local Abbreviation mkTrie := (mkTrie (K := K)).
Local Abbreviation mkShape := (mkShape (K := K)).
Local Abbreviation Node_new := (Node_new (K := K)).
Local Abbreviation cut_head := (cut_head (K := K) released).
Local Abbreviation memcmp_ne := (memcmp_ne (K := K)).
Local Abbreviation mismatch := (mismatch (K := K)).
Local Abbreviation find_child := (find_child (K := K)).
Local Abbreviation child_table := (child_table (K := K)).
Local Abbreviation shape_of := (shape_of (K := K)).
Local Abbreviation trie_shape := (trie_shape (K := K)).
Local Abbreviation prefixes := (prefixes (K := K)).
Local Abbreviation record_op := (record_op (K := K)).
Local Abbreviation contents := (contents (K := K)).
Local Abbreviation edge_view := (edge_view (K := K)).
Local Abbreviation empty_trie := (empty_trie (K := K)).
Local Abbreviation head_ := (head_ (K := K)).

(** ** The recursive equations, in the shape of the source *)

Local Ltac by_cases :=
  cbv beta zeta; intros; simplify_eq;
  repeat match goal with
         | Hb : ?x = _ |- context [?x] => rewrite Hb
         end;
  try done.

Lemma Node_get_value_eq c d v key :
  Node_get_value (mkNode c d v) key =
    if length key <? length d then INVALID
    else if memcmp_ne d key (length d) then INVALID
    else if length key =? length d then v
    else match c with
         | None => INVALID
         | Some m =>
             match m !! (key !!! length d) with
             | None => INVALID
             | Some ch => Node_get_value ch (drop (S (length d)) key)
             end
         end.
Proof.
  revert c d v key.
  cut (∀ n key, (λ n key r, ∀ c d v, n = mkNode c d v → r =
    if length key <? length d then INVALID
    else if memcmp_ne d key (length d) then INVALID
    else if length key =? length d then v
    else match c with
         | None => INVALID
         | Some m =>
             match m !! (key !!! length d) with
             | None => INVALID
             | Some ch => Node_get_value ch (drop (S (length d)) key)
             end
         end) n key (Node_get_value n key)).
  { intros HH c d v key. by apply HH. }
  apply Node_get_value_elim; by_cases.
Qed.

Lemma Node_remove_key_eq c d v key :
  Node_remove_key (mkNode c d v) key =
    if length key <? length d then (INVALID, mkNode c d v)
    else if memcmp_ne d key (length d) then (INVALID, mkNode c d v)
    else if length key =? length d then (v, mkNode c d INVALID)
    else match c with
         | None => (INVALID, mkNode c d v)
         | Some m =>
             match m !! (key !!! length d) with
             | None => (INVALID, mkNode c d v)
             | Some ch =>
                 let r := Node_remove_key ch (drop (S (length d)) key) in
                 (r.1, mkNode (Some (<[key !!! length d := r.2]> m)) d v)
             end
         end.
Proof.
  revert c d v key.
  cut (∀ n key, (λ n key r, ∀ c d v, n = mkNode c d v → r =
    if length key <? length d then (INVALID, mkNode c d v)
    else if memcmp_ne d key (length d) then (INVALID, mkNode c d v)
    else if length key =? length d then (v, mkNode c d INVALID)
    else match c with
         | None => (INVALID, mkNode c d v)
         | Some m =>
             match m !! (key !!! length d) with
             | None => (INVALID, mkNode c d v)
             | Some ch =>
                 let r := Node_remove_key ch (drop (S (length d)) key) in
                 (r.1, mkNode (Some (<[key !!! length d := r.2]> m)) d v)
             end
         end) n key (Node_remove_key n key)).
  { intros HH c d v key. by apply HH. }
  apply Node_remove_key_elim; by_cases.
Qed.

Lemma Node_get_values_eq c d v buffer values :
  Node_get_values (mkNode c d v) buffer values =
    if length buffer <? length d then values
    else if memcmp_ne d buffer (length d) then values
    else if length d <? length buffer then
      match c with
      | None => push_valid v values
      | Some m =>
          match m !! (buffer !!! length d) with
          | None => push_valid v values
          | Some ch =>
              Node_get_values ch (drop (S (length d)) buffer)
                (push_valid v values)
          end
      end
    else push_valid v values.
Proof.
  revert c d v buffer values.
  cut (∀ n buffer values, (λ n buffer values r, ∀ c d v, n = mkNode c d v → r =
    if length buffer <? length d then values
    else if memcmp_ne d buffer (length d) then values
    else if length d <? length buffer then
      match c with
      | None => push_valid v values
      | Some m =>
          match m !! (buffer !!! length d) with
          | None => push_valid v values
          | Some ch =>
              Node_get_values ch (drop (S (length d)) buffer)
                (push_valid v values)
          end
      end
    else push_valid v values)
    n buffer values (Node_get_values n buffer values)).
  { intros HH c d v buffer values. by apply HH. }
  apply Node_get_values_elim; by_cases.
Qed.

Lemma Node_Add_None key value :
  Node_Add None key value = mkNode None key value.
Proof. by simp Node_Add. Qed.

Lemma Node_Add_Some c d v key value :
  Node_Add (Some (mkNode c d v)) key value =
    let i := mismatch d key in
    if i <? Nat.min (length d) (length key) then
      mkNode
        (Some (<[key !!! i := mkNode None (drop (S i) key) value]>
                 (<[d !!! i := cut_head (mkNode c d v) (S i)]> ∅)))
        (take i key) INVALID
    else if length d <? length key then
      mkNode
        (Some (<[key !!! i :=
                   Node_Add (find_child c (key !!! i)) (drop (S i) key) value]>
                 (child_table c)))
        d v
    else if length key <? length d then
      mkNode (Some (<[d !!! i := cut_head (mkNode c d v) (S i)]> ∅))
        (take (length key) key) value
    else mkNode c d value.
Proof.
  revert c d v key value.
  cut (∀ on key value, (λ on key value r, ∀ c d v, on = Some (mkNode c d v) → r =
    let i := mismatch d key in
    if i <? Nat.min (length d) (length key) then
      mkNode
        (Some (<[key !!! i := mkNode None (drop (S i) key) value]>
                 (<[d !!! i := cut_head (mkNode c d v) (S i)]> ∅)))
        (take i key) INVALID
    else if length d <? length key then
      mkNode
        (Some (<[key !!! i :=
                   Node_Add (find_child c (key !!! i)) (drop (S i) key) value]>
                 (child_table c)))
        d v
    else if length key <? length d then
      mkNode (Some (<[d !!! i := cut_head (mkNode c d v) (S i)]> ∅))
        (take (length key) key) value
    else mkNode c d value) on key value (Node_Add on key value)).
  { intros HH c d v key value. by apply HH. }
  apply Node_Add_elim; by_cases.
Qed.

(** ** How a key relates to an edge *)

Lemma memcmp_ne_false d key :
  memcmp_ne d key (length d) = false ↔ d `prefix_of` key.
Proof.
  unfold memcmp_ne. rewrite negb_false_iff, bool_decide_eq_true, firstn_all.
  split.
  - intros ->. apply prefix_take.
  - intros [r ->]. by rewrite take_app_length.
Qed.

Lemma drop_S_middle (d : list K) k r :
  drop (S (length d)) (d ++ k :: r) = r.
Proof.
  rewrite (cons_middle k d r), app_assoc.
  rewrite drop_app_length'; [done|]. rewrite length_app. simpl. lia.
Qed.

Lemma Node_get_value_prefix c d v r :
  Node_get_value (mkNode c d v) (d ++ r) =
    match r with
    | [] => v
    | k :: r' =>
        match find_child c k with
        | Some ch => Node_get_value ch r'
        | None => INVALID
        end
    end.
Proof.
  rewrite Node_get_value_eq.
  assert (memcmp_ne d (d ++ r) (length d) = false) as ->
    by (apply memcmp_ne_false, prefix_app_r; done).
  rewrite length_app.
  destruct (Nat.ltb_spec (length d + length r) (length d)); [lia|].
  destruct r as [|k r']; simpl.
  - by rewrite Nat.add_0_r, Nat.eqb_refl.
  - destruct (Nat.eqb_spec (length d + S (length r')) (length d)); [lia|].
    rewrite list_lookup_total_middle by done.
    rewrite drop_S_middle. by destruct c.
Qed.

Lemma Node_get_value_not_prefix c d v key :
  ¬ d `prefix_of` key → Node_get_value (mkNode c d v) key = INVALID.
Proof.
  intros Hp. rewrite Node_get_value_eq.
  destruct (length key <? length d); [done|].
  destruct (memcmp_ne d key (length d)) eqn:E; [done|].
  by apply memcmp_ne_false in E.
Qed.

Lemma Node_remove_key_prefix c d v r :
  Node_remove_key (mkNode c d v) (d ++ r) =
    match r with
    | [] => (v, mkNode c d INVALID)
    | k :: r' =>
        match find_child c k with
        | Some ch =>
            let r0 := Node_remove_key ch r' in
            (r0.1, mkNode (Some (<[k := r0.2]> (child_table c))) d v)
        | None => (INVALID, mkNode c d v)
        end
    end.
Proof.
  rewrite Node_remove_key_eq.
  assert (memcmp_ne d (d ++ r) (length d) = false) as ->
    by (apply memcmp_ne_false, prefix_app_r; done).
  rewrite length_app.
  destruct (Nat.ltb_spec (length d + length r) (length d)); [lia|].
  destruct r as [|k r']; simpl.
  - by rewrite Nat.add_0_r, Nat.eqb_refl.
  - destruct (Nat.eqb_spec (length d + S (length r')) (length d)); [lia|].
    rewrite list_lookup_total_middle by done.
    rewrite drop_S_middle. destruct c as [m|]; simpl; [|done].
    by destruct (m !! k).
Qed.

Lemma Node_remove_key_not_prefix c d v key :
  ¬ d `prefix_of` key →
  Node_remove_key (mkNode c d v) key = (INVALID, mkNode c d v).
Proof.
  intros Hp. rewrite Node_remove_key_eq.
  destruct (length key <? length d); [done|].
  destruct (memcmp_ne d key (length d)) eqn:E; [done|].
  by apply memcmp_ne_false in E.
Qed.

Lemma Node_get_values_prefix c d v r values :
  Node_get_values (mkNode c d v) (d ++ r) values =
    match r with
    | [] => push_valid v values
    | k :: r' =>
        match find_child c k with
        | Some ch => Node_get_values ch r' (push_valid v values)
        | None => push_valid v values
        end
    end.
Proof.
  rewrite Node_get_values_eq.
  assert (memcmp_ne d (d ++ r) (length d) = false) as ->
    by (apply memcmp_ne_false, prefix_app_r; done).
  rewrite length_app.
  destruct (Nat.ltb_spec (length d + length r) (length d)); [lia|].
  destruct r as [|k r']; simpl.
  - destruct (Nat.ltb_spec (length d) (length d + 0)); [lia|done].
  - destruct (Nat.ltb_spec (length d) (length d + S (length r'))); [|lia].
    rewrite list_lookup_total_middle by done.
    rewrite drop_S_middle. by destruct c.
Qed.

Lemma Node_get_values_not_prefix c d v buffer values :
  ¬ d `prefix_of` buffer →
  Node_get_values (mkNode c d v) buffer values = values.
Proof.
  intros Hp. rewrite Node_get_values_eq.
  destruct (length buffer <? length d); [done|].
  destruct (memcmp_ne d buffer (length d)) eqn:E; [done|].
  by apply memcmp_ne_false in E.
Qed.

Lemma edge_view_total d key : edge_view d key.
Proof.
  revert key. induction d as [|x d IH]; intros [|y key].
  - apply ev_same.
  - apply (ev_longer [] y key).
  - apply (ev_shorter [] x d).
  - destruct (decide (x = y)) as [->|Hxy].
    + destruct (IH key) as [p x' d' y' key' Hne|d' y' key'|key' x' d'|d'].
      * by apply (ev_split (y :: p)).
      * apply (ev_longer (y :: d')).
      * apply (ev_shorter (y :: key')).
      * apply ev_same.
    + by apply (ev_split []).
Qed.

Lemma mismatch_app p d key :
  mismatch (p ++ d) (p ++ key) = length p + mismatch d key.
Proof.
  induction p as [|a p IH]; simpl; [done|].
  by rewrite decide_True, IH.
Qed.

Lemma mismatch_split p x d y key :
  x ≠ y → mismatch (p ++ x :: d) (p ++ y :: key) = length p.
Proof.
  intros Hxy. rewrite mismatch_app. simpl. rewrite decide_False by done. lia.
Qed.

Lemma mismatch_longer d r : mismatch d (d ++ r) = length d.
Proof.
  rewrite <- (app_nil_r d) at 1. rewrite mismatch_app. simpl. lia.
Qed.

Lemma mismatch_shorter key r : mismatch (key ++ r) key = length key.
Proof.
  rewrite <- (app_nil_r key) at 2. rewrite mismatch_app.
  destruct r; simpl; lia.
Qed.

Lemma Node_Add_split c p x d' v y key' value :
  x ≠ y →
  Node_Add (Some (mkNode c (p ++ x :: d') v)) (p ++ y :: key') value =
    mkNode
      (Some (<[y := mkNode None key' value]>
               (<[x := cut_head (mkNode c (p ++ x :: d') v) (S (length p))]>
                  ∅))) p INVALID.
Proof.
  intros Hxy. rewrite Node_Add_Some. cbv zeta. rewrite mismatch_split by done.
  rewrite !length_app. simpl.
  destruct (Nat.ltb_spec (length p)
    (Nat.min (length p + S (length d')) (length p + S (length key')))); [|lia].
  rewrite !list_lookup_total_middle, !drop_S_middle by done.
  by rewrite take_app_length.
Qed.

Lemma Node_Add_longer c d v y key' value :
  Node_Add (Some (mkNode c d v)) (d ++ y :: key') value =
    mkNode (Some (<[y := Node_Add (find_child c y) key' value]>
                    (child_table c))) d v.
Proof.
  rewrite Node_Add_Some. cbv zeta. rewrite mismatch_longer.
  rewrite !length_app. simpl.
  destruct (Nat.ltb_spec (length d)
    (Nat.min (length d) (length d + S (length key')))); [lia|].
  destruct (Nat.ltb_spec (length d) (length d + S (length key'))); [|lia].
  by rewrite !list_lookup_total_middle, !drop_S_middle by done.
Qed.

Lemma Node_Add_shorter c key x d' v value :
  Node_Add (Some (mkNode c (key ++ x :: d') v)) key value =
    mkNode
      (Some (<[x := cut_head (mkNode c (key ++ x :: d') v) (S (length key))]>
               ∅)) key value.
Proof.
  rewrite Node_Add_Some. cbv zeta. rewrite mismatch_shorter.
  rewrite !length_app. simpl.
  destruct (Nat.ltb_spec (length key)
    (Nat.min (length key + S (length d')) (length key))); [lia|].
  destruct (Nat.ltb_spec (length key + S (length d')) (length key)); [lia|].
  destruct (Nat.ltb_spec (length key) (length key + S (length d'))); [|lia].
  rewrite !list_lookup_total_middle by done.
  by rewrite firstn_all.
Qed.

Lemma Node_Add_same c d v value :
  Node_Add (Some (mkNode c d v)) d value = mkNode c d value.
Proof.
  rewrite Node_Add_Some. cbv zeta.
  pose proof (mismatch_longer d []) as E. rewrite app_nil_r in E. rewrite E.
  destruct (Nat.ltb_spec (length d) (Nat.min (length d) (length d))); [lia|].
  destruct (Nat.ltb_spec (length d) (length d)); [lia|done].
Qed.

(** ** Lookup after insertion *)

Lemma child_table_lookup c k : child_table c !! k = find_child c k.
Proof. by destruct c. Qed.

Lemma Node_get_value_strip c q d v r :
  Node_get_value (mkNode c (q ++ d) v) (q ++ r) =
  Node_get_value (mkNode c d v) r.
Proof.
  destruct (decide (d `prefix_of` r)) as [[r' ->]|Hn].
  - rewrite app_assoc. by rewrite !Node_get_value_prefix.
  - rewrite !Node_get_value_not_prefix; [done|done|].
    intros Hp. apply Hn. by apply prefix_app_inv in Hp.
Qed.

Lemma Node_get_value_leaf key v k' :
  Node_get_value (mkNode None key v) k' =
    if decide (k' = key) then v else INVALID.
Proof.
  destruct (decide (key `prefix_of` k')) as [[r ->]|Hn].
  - rewrite Node_get_value_prefix. destruct r as [|z r']; simpl.
    + by rewrite app_nil_r, decide_True.
    + rewrite decide_False; [done|].
      intros E. apply (f_equal length) in E. rewrite length_app in E.
      simpl in E. lia.
  - rewrite Node_get_value_not_prefix by done.
    rewrite decide_False; [done|]. by intros ->.
Qed.

Lemma Node_get_value_exact c d v : Node_get_value (mkNode c d v) d = v.
Proof.
  pose proof (Node_get_value_prefix c d v []) as E. by rewrite app_nil_r in E.
Qed.

(** The key that [Add] has just inserted is found, whatever the released
    storage reads as. *)
Lemma Node_get_value_Add_same on key value :
  Node_get_value (Node_Add on key value) key = value.
Proof.
  remember (length key) as n eqn:Hn. revert on key Hn.
  induction n as [n IH] using lt_wf_ind. intros on key ->.
  destruct on as [[c d v]|].
  2:{ rewrite Node_Add_None. apply Node_get_value_exact. }
  destruct (edge_view_total d key) as [p x d' y key' Hxy|d y key'|key x d'|d].
  - rewrite Node_Add_split by done. rewrite Node_get_value_prefix. simpl.
    rewrite lookup_insert_eq. apply Node_get_value_exact.
  - rewrite Node_Add_longer, Node_get_value_prefix. simpl.
    rewrite lookup_insert_eq.
    apply (IH (length key')); [|done]. rewrite length_app. simpl. lia.
  - rewrite Node_Add_shorter. apply Node_get_value_exact.
  - rewrite Node_Add_same. apply Node_get_value_exact.
Qed.

(** ** What [cut_head] leaves *)

(** What [cut_head] keeps whatever the released storage reads as: the
    table, the value and the new length of the edge. *)
Lemma cut_head_keeps c d v len :
  c_ (cut_head (mkNode c d v) len) = c
  ∧ v_ (cut_head (mkNode c d v) len) = v
  ∧ l_ (cut_head (mkNode c d v) len) = length d - len.
Proof.
  unfold cut_head, l_. simpl. repeat split.
  destruct (Nat.ltb_spec 0 (length d - len)); simpl.
  - by rewrite length_fmap, length_seq.
  - lia.
Qed.

(** The edge that [cut_head] leaves is the old edge without its first
    [len] symbols provided that the released buffer reads back unchanged. *)
Lemma cut_head_intact c d v len :
  (∀ j, j < length d → released d j = d !!! j) →
  cut_head (mkNode c d v) len = mkNode c (drop len d) v.
Proof.
  intros Hr. unfold cut_head. cbv zeta. f_equal.
  destruct (Nat.ltb_spec 0 (length d - len)) as [Hl|Hl].
  - apply list_eq. intros i. rewrite list_lookup_fmap, lookup_drop.
    destruct (decide (i < length d - len)) as [Hi|Hi].
    + rewrite lookup_seq_lt by done. simpl. rewrite Hr by lia.
      by rewrite (list_lookup_lookup_total_lt d (len + i)) by lia.
    + rewrite lookup_seq_ge by lia. simpl. symmetry.
      apply lookup_ge_None. lia.
  - symmetry. apply drop_ge. lia.
Qed.

(** ** Insertion when released storage reads back unchanged *)

Section Intact.

Hypothesis released_intact : ∀ d j, j < length d → released d j = d !!! j.

Lemma cut_head_middle c p x d' v :
  cut_head (mkNode c (p ++ x :: d') v) (S (length p)) = mkNode c d' v.
Proof.
  rewrite cut_head_intact by (intros j Hj; by apply released_intact).
  by rewrite drop_S_middle.
Qed.

Lemma Node_get_value_Add on key value k' :
  Node_get_value (Node_Add on key value) k' =
    if decide (k' = key) then value else Node_lookup on k'.
Proof.
  remember (length key) as n eqn:Hn. revert on key k' Hn.
  induction n as [n IH] using lt_wf_ind. intros on key k' ->.
  destruct on as [[c d v]|]; simpl.
  2:{ rewrite Node_Add_None. apply Node_get_value_leaf. }
  destruct (edge_view_total d key) as [p x d' y key' Hxy|d y key'|key x d'|d].
  - rewrite Node_Add_split, cut_head_middle by done.
    destruct (decide (p `prefix_of` k')) as [[r ->]|Hp].
    + rewrite Node_get_value_prefix. destruct r as [|z r']; simpl.
      * rewrite decide_False by (intros ?; simplify_list_eq).
        rewrite Node_get_value_not_prefix; [done|].
        intros Hp. apply prefix_app_inv in Hp. by apply prefix_nil_not in Hp.
      * destruct (decide (z = y)) as [->|Hzy].
        { rewrite lookup_insert_eq, Node_get_value_leaf.
          destruct (decide (r' = key')) as [->|Hr].
          - by rewrite decide_True.
          - rewrite decide_False by (intros ?; simplify_list_eq).
            rewrite Node_get_value_not_prefix; [done|].
            intros Hp. apply prefix_app_inv, prefix_cons_inv_1 in Hp. done. }
        rewrite lookup_insert_ne by done.
        rewrite decide_False by (intros ?; simplify_list_eq).
        destruct (decide (z = x)) as [->|Hzx].
        { rewrite lookup_insert_eq.
          by rewrite (cons_middle x p d'), (cons_middle x p r'), !app_assoc,
            Node_get_value_strip. }
        rewrite lookup_insert_ne, lookup_empty by done.
        rewrite Node_get_value_not_prefix; [done|].
        intros Hp. apply prefix_app_inv, prefix_cons_inv_1 in Hp. done.
    + rewrite !Node_get_value_not_prefix; [| |done].
      * rewrite decide_False; [done|]. intros ->. apply Hp.
        by apply prefix_app_r.
      * intros Hp'. apply Hp. etrans; [|done]. by apply prefix_app_r.
  - rewrite Node_Add_longer.
    destruct (decide (d `prefix_of` k')) as [[r ->]|Hp].
    + rewrite !Node_get_value_prefix. destruct r as [|z r']; simpl.
      * by rewrite decide_False by (intros ?; simplify_list_eq).
      * destruct (decide (z = y)) as [->|Hzy].
        { rewrite lookup_insert_eq.
          rewrite (IH (length key')); [|rewrite length_app; simpl; lia|done].
          destruct (decide (r' = key')) as [->|Hr].
          - by rewrite decide_True.
          - by rewrite decide_False by (intros ?; simplify_list_eq). }
        rewrite lookup_insert_ne, child_table_lookup by done.
        by rewrite decide_False by (intros ?; simplify_list_eq).
    + rewrite !Node_get_value_not_prefix by done.
      rewrite decide_False; [done|]. intros ->. apply Hp.
      by apply prefix_app_r.
  - rewrite Node_Add_shorter, cut_head_middle.
    destruct (decide (key `prefix_of` k')) as [[r ->]|Hp].
    + rewrite Node_get_value_prefix. destruct r as [|z r']; simpl.
      * by rewrite app_nil_r, decide_True.
      * rewrite decide_False.
        2:{ intros E. apply (f_equal length) in E. rewrite length_app in E.
            simpl in E. lia. }
        destruct (decide (z = x)) as [->|Hzx].
        { rewrite lookup_insert_eq.
          by rewrite (cons_middle x key d'), (cons_middle x key r'),
            !app_assoc, Node_get_value_strip. }
        rewrite lookup_insert_ne, lookup_empty by done.
        rewrite Node_get_value_not_prefix; [done|].
        intros Hp. apply prefix_app_inv, prefix_cons_inv_1 in Hp. done.
    + rewrite !Node_get_value_not_prefix; [| |done].
      * rewrite decide_False; [done|]. by intros ->.
      * intros Hp'. apply Hp. etrans; [|done]. by apply prefix_app_r.
  - rewrite Node_Add_same.
    destruct (decide (d `prefix_of` k')) as [[r ->]|Hp].
    + rewrite !Node_get_value_prefix. destruct r as [|z r']; simpl.
      * by rewrite app_nil_r, decide_True.
      * rewrite decide_False; [done|].
        intros E. apply (f_equal length) in E. rewrite length_app in E.
        simpl in E. lia.
    + rewrite !Node_get_value_not_prefix by done.
      rewrite decide_False; [done|]. by intros ->.
Qed.

End Intact.

(** ** Removal *)

Lemma Node_remove_key_fst n key :
  (Node_remove_key n key).1 = Node_get_value n key.
Proof.
  remember (length key) as len eqn:Hlen. revert n key Hlen.
  induction len as [len IH] using lt_wf_ind. intros [c d v] key ->.
  destruct (decide (d `prefix_of` key)) as [[r ->]|Hp].
  - rewrite Node_remove_key_prefix, Node_get_value_prefix.
    destruct r as [|z r']; [done|].
    destruct (find_child c z) as [ch|]; [|done]. simpl.
    apply (IH (length r')); [|done]. rewrite length_app. simpl. lia.
  - by rewrite Node_remove_key_not_prefix, Node_get_value_not_prefix.
Qed.

Lemma Node_get_value_remove n key k' :
  Node_get_value (Node_remove_key n key).2 k' =
    if decide (k' = key) then INVALID else Node_get_value n k'.
Proof.
  remember (length key) as len eqn:Hlen. revert n key k' Hlen.
  induction len as [len IH] using lt_wf_ind. intros [c d v] key k' ->.
  destruct (decide (d `prefix_of` key)) as [[r ->]|Hp].
  - rewrite Node_remove_key_prefix. destruct r as [|z r']; simpl.
    + rewrite app_nil_r.
      destruct (decide (d `prefix_of` k')) as [[r ->]|Hp].
      * rewrite !Node_get_value_prefix. destruct r as [|y r'].
        { by rewrite app_nil_r, decide_True. }
        rewrite decide_False; [done|].
        intros E. apply (f_equal length) in E. rewrite length_app in E.
        simpl in E. lia.
      * rewrite !Node_get_value_not_prefix by done. by destruct (decide _).
    + destruct (find_child c z) as [ch|] eqn:Hch; simpl.
      * destruct (decide (d `prefix_of` k')) as [[r ->]|Hp].
        { rewrite !Node_get_value_prefix. destruct r as [|y r'']; simpl.
          { by rewrite decide_False by (intros ?; simplify_list_eq). }
          destruct (decide (y = z)) as [->|Hyz].
          - rewrite lookup_insert_eq, Hch.
            rewrite (IH (length r')); [|rewrite length_app; simpl; lia|done].
            destruct (decide (r'' = r')) as [->|Hr].
            + by rewrite decide_True.
            + by rewrite decide_False by (intros ?; simplify_list_eq).
          - rewrite lookup_insert_ne, child_table_lookup by done.
            by rewrite decide_False by (intros ?; simplify_list_eq). }
        rewrite !Node_get_value_not_prefix by done. by destruct (decide _).
      * destruct (decide (k' = d ++ z :: r')) as [->|Hk]; [|done].
        by rewrite Node_get_value_prefix, Hch.
  - rewrite Node_remove_key_not_prefix by done. simpl.
    destruct (decide (k' = key)) as [->|Hk]; [|done].
    by rewrite Node_get_value_not_prefix.
Qed.

Lemma child_table_insert_id c k ch :
  find_child c k = Some ch → Some (<[k := ch]> (child_table c)) = c.
Proof.
  destruct c as [m|]; simpl; [|done]. intros Hk. by rewrite insert_id.
Qed.

Lemma Node_remove_key_absent n key :
  Node_get_value n key = INVALID → (Node_remove_key n key).2 = n.
Proof.
  remember (length key) as len eqn:Hlen. revert n key Hlen.
  induction len as [len IH] using lt_wf_ind. intros [c d v] key ->.
  destruct (decide (d `prefix_of` key)) as [[r ->]|Hp].
  - rewrite Node_remove_key_prefix, Node_get_value_prefix.
    destruct r as [|z r']; simpl; [by intros ->|].
    destruct (find_child c z) as [ch|] eqn:Hch; simpl; [|done].
    intros Hv. rewrite (IH (length r')); [|rewrite length_app; simpl; lia|done..].
    by rewrite child_table_insert_id.
  - by rewrite Node_remove_key_not_prefix.
Qed.

(** ** Prefix enumeration *)

Lemma push_valid_valid v values :
  push_valid v values = values ++ option_list (valid v).
Proof.
  unfold push_valid, valid.
  destruct (decide (v = INVALID)); simpl.
  - by rewrite decide_False, app_nil_r by naive_solver.
  - by rewrite decide_True.
Qed.

Lemma omap_all_None {A B} (f : A → option B) (l : list A) :
  (∀ p, p ∈ l → f p = None) → omap f l = [].
Proof.
  induction l as [|a l IH]; intros Hl; csimpl; [done|].
  rewrite Hl by apply list_elem_of_here.
  apply IH. intros p Hp. apply Hl. by apply list_elem_of_further.
Qed.

Lemma omap_fmap_list {A B C} (g : A → B) (f : B → option C) (l : list A) :
  omap f (g <$> l) = omap (λ a, f (g a)) l.
Proof.
  induction l as [|a l IH]; csimpl; [done|]. by rewrite IH.
Qed.

Lemma omap_ext_list {A B} (f g : A → option B) (l : list A) :
  (∀ a, f a = g a) → omap f l = omap g l.
Proof.
  intros Hfg. induction l as [|a l IH]; csimpl; [done|]. by rewrite Hfg, IH.
Qed.

Lemma prefixes_prefix p q : p ∈ prefixes q → p `prefix_of` q.
Proof.
  revert p. induction q as [|x q IH]; intros p; simpl.
  - intros ->%list_elem_of_singleton. done.
  - intros [->|Hp]%elem_of_cons; [apply prefix_nil|].
    apply list_elem_of_fmap in Hp as (p' & -> & Hp').
    by apply prefix_cons, IH.
Qed.

Lemma omap_prefixes_skip {B} (f : list K → option B) d r :
  (∀ p, p `prefix_of` d → p ≠ d → f p = None) →
  omap f (prefixes (d ++ r)) = omap (λ p, f (d ++ p)) (prefixes r).
Proof.
  revert f. induction d as [|x d IH]; intros f Hf; [done|].
  cbn [app prefixes]. csimpl.
  rewrite (Hf []) by (done || apply prefix_nil).
  rewrite omap_fmap_list. apply IH. intros p Hp Hne.
  apply Hf; [by apply prefix_cons|congruence].
Qed.

Lemma Node_get_values_spec n q values :
  Node_get_values n q values =
    values ++ omap (λ p, valid (Node_get_value n p)) (prefixes q).
Proof.
  remember (length q) as len eqn:Hlen. revert n q values Hlen.
  induction len as [len IH] using lt_wf_ind. intros [c d v] q values ->.
  destruct (decide (d `prefix_of` q)) as [[r ->]|Hp].
  - rewrite Node_get_values_prefix, omap_prefixes_skip.
    2:{ intros p Hp Hne. rewrite Node_get_value_not_prefix.
        - unfold valid. by rewrite decide_True.
        - intros Hd. apply Hne. by apply (anti_symm prefix). }
    erewrite omap_ext_list;
      [|intros p; rewrite Node_get_value_prefix; reflexivity].
    rewrite push_valid_valid.
    destruct r as [|z r']; cbn [prefixes]; csimpl.
    + by destruct (valid v).
    + rewrite omap_fmap_list. cbn beta.
      destruct (find_child c z) as [ch|].
      * rewrite (IH (length r')); [|rewrite length_app; simpl; lia|done].
        rewrite <- app_assoc. by destruct (valid v).
      * rewrite (omap_all_None (λ _, valid INVALID)).
        2:{ intros _ _. unfold valid. by rewrite decide_True. }
        by destruct (valid v).
  - rewrite Node_get_values_not_prefix, omap_all_None, app_nil_r; [done| |done].
    intros p Hpq%prefixes_prefix. rewrite Node_get_value_not_prefix.
    + unfold valid. by rewrite decide_True.
    + intros Hd. apply Hp. by etrans.
Qed.

Lemma prefixes_take q :
  prefixes q = (λ j, take j q) <$> seq 0 (S (length q)).
Proof.
  induction q as [|x q IH]; [done|].
  cbn [prefixes]. rewrite IH. cbn [length].
  rewrite <- (cons_seq (S (length q)) 0), fmap_cons. cbn [take]. f_equal.
  by rewrite <- (fmap_S_seq 0), <- !list_fmap_compose.
Qed.

(** ** Structure *)

Lemma shape_of_insert k (n : Node) (m : gmap K Node) :
  shape_of <$> <[k := n]> m = <[k := shape_of n]> (shape_of <$> m).
Proof. apply fmap_insert. Qed.

Lemma shape_of_remove n key :
  shape_of (Node_remove_key n key).2 = shape_of n.
Proof.
  remember (length key) as len eqn:Hlen. revert n key Hlen.
  induction len as [len IH] using lt_wf_ind. intros [c d v] key ->.
  destruct (decide (d `prefix_of` key)) as [[r ->]|Hp].
  - rewrite Node_remove_key_prefix. destruct r as [|z r']; [done|].
    destruct (find_child c z) as [ch|] eqn:Hch; [|done].
    cbn [snd shape_of]. f_equal. rewrite shape_of_insert.
    rewrite (IH (length r')); [|rewrite length_app; simpl; lia|done].
    destruct c as [m|]; [|done]. simpl in *. f_equal.
    apply insert_id. by rewrite lookup_fmap, Hch.
  - by rewrite Node_remove_key_not_prefix.
Qed.

Lemma Node_Add_Add on key v1 v2 :
  Node_Add (Some (Node_Add on key v1)) key v2 = Node_Add on key v2.
Proof.
  remember (length key) as len eqn:Hlen. revert on key Hlen.
  induction len as [len IH] using lt_wf_ind. intros on key ->.
  destruct on as [[c d v]|].
  2:{ by rewrite !Node_Add_None, Node_Add_same. }
  destruct (edge_view_total d key) as [p x d' y key' Hxy|d y key'|key x d'|d].
  - rewrite !Node_Add_split by done. rewrite Node_Add_longer. simpl.
    rewrite lookup_insert_eq, Node_Add_same. by rewrite insert_insert_eq.
  - rewrite !Node_Add_longer. simpl. rewrite lookup_insert_eq.
    rewrite (IH (length key')); [|rewrite length_app; simpl; lia|done].
    by rewrite insert_insert_eq.
  - by rewrite !Node_Add_shorter, Node_Add_same.
  - by rewrite !Node_Add_same.
Qed.

Lemma shape_of_Add_value on key v1 v2 :
  shape_of (Node_Add on key v1) = shape_of (Node_Add on key v2).
Proof.
  remember (length key) as len eqn:Hlen. revert on key Hlen.
  induction len as [len IH] using lt_wf_ind. intros on key ->.
  destruct on as [[c d v]|].
  2:{ by rewrite !Node_Add_None. }
  destruct (edge_view_total d key) as [p x d' y key' Hxy|d y key'|key x d'|d].
  - rewrite !Node_Add_split by done. cbn [shape_of]. by rewrite !shape_of_insert.
  - rewrite !Node_Add_longer. cbn [shape_of]. rewrite !shape_of_insert.
    by rewrite (IH (length key') ltac:(rewrite length_app; simpl; lia) _ _ eq_refl).
  - by rewrite !Node_Add_shorter.
  - by rewrite !Node_Add_same.
Qed.

(** ** The root table *)

Lemma find_key_true t key :
  find_key t key = true ↔ get_value t key ≠ INVALID.
Proof.
  unfold find_key. rewrite negb_true_iff. apply Z.eqb_neq.
Qed.

Lemma find_key_false t key :
  find_key t key = false ↔ get_value t key = INVALID.
Proof.
  unfold find_key. rewrite negb_false_iff. apply Z.eqb_eq.
Qed.

Lemma valid_Some v w : valid v = Some w ↔ v = w ∧ v ≠ INVALID.
Proof.
  unfold valid. destruct (decide (v = INVALID)) as [->|Hv].
  - split; [done|]. by intros [_ ?].
  - split; [by intros [= <-]|]. by intros [<- _].
Qed.

Lemma valid_None v : valid v = None ↔ v = INVALID.
Proof. unfold valid. by destruct (decide (v = INVALID)). Qed.

Lemma stored_Some t key v :
  stored t key = Some v → get_value t key = v ∧ v ≠ INVALID.
Proof.
  unfold stored, get_value. destruct (head_ t !! (key !!! 0)); [|done].
  intros [<- ?]%valid_Some. done.
Qed.

Lemma remove_key_fst t key n :
  head_ t !! (key !!! 0) = Some n →
  (remove_key t key).1 = Node_get_value n (drop 1 key).
Proof.
  intros Hn. unfold remove_key. rewrite Hn. apply Node_remove_key_fst.
Qed.

Lemma stored_remove_key t key k' :
  key ≠ [] → k' ≠ [] →
  stored (remove_key t key).2 k' =
    if decide (k' = key) then None else stored t k'.
Proof.
  destruct key as [|a key]; [done|]. destruct k' as [|b k']; [done|].
  intros _ _. unfold stored, remove_key. simpl. rewrite !drop_0.
  destruct (head_ t !! a) as [n|] eqn:Hn; simpl.
  - destruct (decide (b = a)) as [->|Hba].
    + rewrite lookup_insert_eq, Node_get_value_remove, Hn.
      destruct (decide (k' = key)) as [->|Hk].
      * rewrite decide_True by done. by apply valid_None.
      * by rewrite decide_False by congruence.
    + rewrite lookup_insert_ne by done. by rewrite decide_False by congruence.
  - destruct (decide (b :: k' = a :: key)) as [E|]; [|done].
    simplify_eq. by rewrite Hn.
Qed.

Lemma get_value_remove_key t key k' :
  key ≠ [] → k' ≠ [] → k' ≠ key →
  get_value (remove_key t key).2 k' = get_value t k'.
Proof.
  destruct key as [|a key]; [done|]. destruct k' as [|b k']; [done|].
  intros _ _ Hne. unfold get_value, remove_key. simpl. rewrite !drop_0.
  destruct (head_ t !! a) as [n|] eqn:Hn; simpl; [|done].
  destruct (decide (b = a)) as [->|Hba].
  - rewrite lookup_insert_eq, Node_get_value_remove, Hn.
    by rewrite decide_False by congruence.
  - by rewrite lookup_insert_ne.
Qed.

Lemma trie_shape_remove_key t key :
  trie_shape (remove_key t key).2 = trie_shape t.
Proof.
  unfold trie_shape, remove_key.
  destruct (head_ t !! (key !!! 0)) as [n|] eqn:Hn; [|done]. simpl.
  rewrite shape_of_insert, shape_of_remove.
  apply insert_id. by rewrite lookup_fmap, Hn.
Qed.

(** Removing a key that the trie does not hold leaves the trie as it is. *)
Lemma remove_key_absent t key :
  stored t key = None → (remove_key t key).2 = t.
Proof.
  unfold stored, remove_key.
  destruct (head_ t !! (key !!! 0)) as [n|] eqn:Hn; [|done].
  intros Hv%valid_None. simpl. rewrite Node_remove_key_absent by done.
  destruct t as [h]. simpl in *. f_equal. by apply insert_id.
Qed.

(** Where the root table has a subtree for the first symbol, a key that the
    trie does not hold is answered with the sentinel. *)
Lemma absent_in_subtree t key n :
  head_ t !! (key !!! 0) = Some n → stored t key = None →
  get_value t key = INVALID ∧ (remove_key t key).1 = INVALID.
Proof.
  intros Hn. unfold stored, get_value, remove_key. rewrite Hn. simpl.
  intros Hv%valid_None. by rewrite Node_remove_key_fst.
Qed.

Lemma stored_cons t a p :
  stored t (a :: p) =
    match head_ t !! a with
    | Some n => valid (Node_get_value n p)
    | None => None
    end.
Proof. unfold stored. simpl. by rewrite drop_0. Qed.

Lemma get_values_cons t a q values :
  get_values t (a :: q) values =
    match head_ t !! a with
    | Some n => Node_get_values n q values
    | None => values
    end.
Proof. unfold get_values. simpl. by rewrite drop_0. Qed.

Lemma get_values_stored t q values :
  q ≠ [] →
  get_values t q values =
    values ++ omap (λ j, stored t (take j q)) (seq 1 (length q)).
Proof.
  destruct q as [|a q]; [done|]. intros _. rewrite get_values_cons.
  cbn [length]. rewrite <- fmap_S_seq, omap_fmap_list. cbn [take].
  erewrite (omap_ext_list (λ j, stored t _)); [|intros j; apply stored_cons].
  destruct (head_ t !! a) as [n|].
  - by rewrite Node_get_values_spec, prefixes_take, omap_fmap_list.
  - by rewrite omap_all_None, app_nil_r.
Qed.

Lemma get_value_removed t k v :
  k ≠ [] → stored t k = Some v → get_value (remove_key t k).2 k = INVALID.
Proof.
  intros Hk Hs. pose proof (stored_remove_key t k k Hk Hk) as Hr.
  rewrite decide_True in Hr by done.
  unfold stored in Hs, Hr. unfold get_value.
  assert (is_Some (head_ (remove_key t k).2 !! (k !!! 0))) as [n' Hn'].
  { unfold remove_key.
    destruct (head_ t !! (k !!! 0)); [|done]. simpl.
    rewrite lookup_insert_eq. by eexists. }
  rewrite Hn' in Hr |- *. by apply valid_None.
Qed.

Lemma get_value_add_key_same t k v :
  k ≠ [] → get_value (add_key t k v) k = v.
Proof.
  destruct k as [|a k]; [done|]. intros _. unfold get_value, add_key.
  cbn [head_]. simpl. rewrite drop_0, lookup_insert_eq.
  apply Node_get_value_Add_same.
Qed.

(** ** Histories, when released storage reads back unchanged *)

Section IntactHistory.

Hypothesis released_intact : ∀ d j, j < length d → released d j = d !!! j.

Lemma stored_add_key t key value k' :
  key ≠ [] → k' ≠ [] → value ≠ INVALID →
  stored (add_key t key value) k' =
    if decide (k' = key) then Some value else stored t k'.
Proof.
  destruct key as [|a key]; [done|]. destruct k' as [|b k']; [done|].
  intros _ _ Hv. unfold stored, add_key. cbn [head_]. simpl.
  rewrite !drop_0.
  destruct (decide (b = a)) as [->|Hba].
  - rewrite lookup_insert_eq, Node_get_value_Add by done.
    destruct (decide (k' = key)) as [->|Hk].
    + rewrite decide_True by done. by apply valid_Some.
    + rewrite decide_False by congruence.
      destruct (head_ t !! a); simpl; [done|]. by apply valid_None.
  - rewrite lookup_insert_ne by done. by rewrite decide_False by congruence.
Qed.

Lemma run_snoc ops o : run (ops ++ [o]) = apply_op (run ops) o.
Proof. apply foldl_snoc. Qed.

Lemma contents_snoc ops o : contents (ops ++ [o]) = record_op (contents ops) o.
Proof. apply foldl_snoc. Qed.

Lemma stored_run ops key :
  Forall op_ok ops → key ≠ [] → stored (run ops) key = contents ops !! key.
Proof.
  intros Hops Hkey. induction ops as [|o ops IH] using rev_ind.
  - unfold run, contents, stored. simpl. by rewrite !lookup_empty.
  - apply Forall_app in Hops as [Hops Ho%Forall_inv].
    rewrite run_snoc, contents_snoc. destruct o as [k v|k]; simpl in *.
    + destruct Ho as [Hk Hv]. rewrite stored_add_key by done.
      destruct (decide (key = k)) as [->|Hne].
      * by rewrite lookup_insert_eq.
      * rewrite lookup_insert_ne by done. by apply IH.
    + rewrite stored_remove_key by done.
      destruct (decide (key = k)) as [->|Hne].
      * by rewrite lookup_delete_eq.
      * rewrite lookup_delete_ne by done. by apply IH.
Qed.

Lemma contents_nonempty ops : Forall op_ok ops → contents ops !! [] = None.
Proof.
  intros Hops. induction ops as [|o ops IH] using rev_ind; [done|].
  apply Forall_app in Hops as [Hops Ho%Forall_inv].
  rewrite contents_snoc. destruct o as [k v|k]; simpl in *.
  - destruct Ho as [Hk Hv]. rewrite lookup_insert_ne by done. by apply IH.
  - rewrite lookup_delete_ne by done. by apply IH.
Qed.

(** With the released buffers intact, prefix enumeration on a trie built by
    a history of valid calls lists the values of the keys inserted and not
    removed since. *)
Lemma get_values_history ops q values :
  Forall op_ok ops → q ≠ [] →
  get_values (run ops) q values =
    values ++ omap (λ j, contents ops !! take j q) (seq 1 (length q)).
Proof.
  intros Hops Hq. rewrite get_values_stored by done. f_equal.
  apply list_omap_ext, Forall2_same_length_lookup_2; [done|].
  intros i j j' Hj Hj'. simplify_eq. apply stored_run; [done|].
  apply lookup_seq in Hj as [-> Hi]. by destruct q.
Qed.

End IntactHistory.

(** ** Properties of the public operations *)

(** C1, round trip: on every trie, after [add_key k v] with a non-empty key
    and a value other than the sentinel, [get_value k] is [v] and
    [find_key k] is true. *)
Theorem add_key_round_trip t k v :
  k ≠ [] → v ≠ INVALID →
  get_value (add_key t k v) k = v ∧ find_key (add_key t k v) k = true.
Proof.
  intros Hk Hv. pose proof (get_value_add_key_same t k v Hk) as Hg.
  split; [done|]. apply find_key_true. by rewrite Hg.
Qed.

(** X22, [get_values] against [get_value]: on every trie and for every
    non-empty query, [get_values] appends to the output exactly the values
    that the walk of [get_value] finds for the prefixes of the query, one
    per prefix length and in increasing order of that length; it appends
    nothing when the root table has no subtree for the first symbol of the
    query. *)
Theorem get_values_prefix_enumeration t q values :
  q ≠ [] →
  get_values t q values =
    values ++ omap (λ j, stored t (take j q)) (seq 1 (length q))
  ∧ (head_ t !! (q !!! 0) = None → get_values t q values = values).
Proof.
  intros Hq. split; [by apply get_values_stored|].
  intros Hh. unfold get_values. by rewrite Hh.
Qed.

(** C4, deletion: on every trie, removing a key that the trie holds makes
    [get_value] answer the sentinel and [find_key] answer false for it, and
    every other key that the trie holds, whether or not it extends the
    removed one, is still found with its value. *)
Theorem remove_key_deletes t k v :
  k ≠ [] → stored t k = Some v →
  get_value (remove_key t k).2 k = INVALID ∧
  find_key (remove_key t k).2 k = false ∧
  ∀ k' v', k' ≠ [] → k' ≠ k → stored t k' = Some v' →
           stored (remove_key t k).2 k' = Some v' ∧
           get_value (remove_key t k).2 k' = v'.
Proof.
  intros Hk Hs.
  assert (get_value (remove_key t k).2 k = INVALID) as Hg.
  { by apply get_value_removed with v. }
  split; [done|]. split; [by apply find_key_false|].
  intros k' v' Hk' Hne Hs'.
  assert (stored (remove_key t k).2 k' = Some v') as Hr.
  { rewrite stored_remove_key by done. by rewrite decide_False. }
  split; [done|]. by apply stored_Some in Hr as [? _].
Qed.

(** The split that [Add] makes when the comparison loop stops at an index
    [i] inside both the edge and the key: a non-terminal node whose edge is
    the shared prefix of length [i] and whose table has exactly two entries,
    under the edge's symbol [i] the old node after [cut_head(i + 1)] and
    under the key's symbol [i] a new terminal node for the key cut by
    [i + 1]. *)
Lemma Node_Add_divergence c d v key value i :
  i = mismatch d key → i < length d → i < length key →
  Node_Add (Some (mkNode c d v)) key value =
    mkNode
      (Some (<[key !!! i := Node_new (drop (S i) key) value]>
               (<[d !!! i := cut_head (mkNode c d v) (S i)]> ∅)))
      (take i key) INVALID
  ∧ take i key = take i d
  ∧ d !!! i ≠ key !!! i
  ∧ size (<[key !!! i := Node_new (drop (S i) key) value]>
            (<[d !!! i := cut_head (mkNode c d v) (S i)]>
               (∅ : gmap K Node))) = 2.
Proof.
  intros -> Hd Hkey.
  destruct (edge_view_total d key) as [p x d' y key' Hxy|d y key'|key x d'|d].
  - rewrite mismatch_split by done.
    rewrite !list_lookup_total_middle by done. unfold Node_new.
    rewrite !drop_S_middle, !take_app_length.
    rewrite Node_Add_split by done. repeat split; try done.
    rewrite map_size_insert_None by by rewrite lookup_insert_ne.
    by rewrite map_size_insert_None.
  - rewrite mismatch_longer in Hd. lia.
  - rewrite mismatch_shorter in Hkey. lia.
  - pose proof (mismatch_longer d []) as E. rewrite app_nil_r in E. lia.
Qed.

(** C6, update: inserting a key twice with two different valid values
    leaves the second value as the answer of [get_value], and the edges and
    tables of the trie are those it had after the first insertion. *)
Theorem add_key_update t k v1 v2 :
  k ≠ [] → v1 ≠ INVALID → v2 ≠ INVALID → v1 ≠ v2 →
  get_value (add_key (add_key t k v1) k v2) k = v2 ∧
  get_value (add_key (add_key t k v1) k v2) k ≠ v1 ∧
  trie_shape (add_key (add_key t k v1) k v2) = trie_shape (add_key t k v1).
Proof.
  intros Hk Hv1 Hv2 Hv.
  pose proof (get_value_add_key_same (add_key t k v1) k v2 Hk) as Hg.
  split; [done|]. split; [congruence|].
  unfold trie_shape, add_key. cbn [head_].
  rewrite lookup_insert_eq, Node_Add_Add, insert_insert_eq.
  rewrite !shape_of_insert. f_equal. apply shape_of_Add_value.
Qed.

(** C7, no edge merging: removing a key that the trie holds returns its
    value and clears it; the edge of every node and the symbols of every
    table are as before, and every other key is answered as before. *)
Theorem remove_key_keeps_structure t k v :
  k ≠ [] → stored t k = Some v →
  (remove_key t k).1 = v ∧
  trie_shape (remove_key t k).2 = trie_shape t ∧
  get_value (remove_key t k).2 k = INVALID ∧
  ∀ k', k' ≠ [] → k' ≠ k →
        get_value (remove_key t k).2 k' = get_value t k'.
Proof.
  intros Hk Hs. repeat split.
  - unfold remove_key. unfold stored in Hs.
    destruct (head_ t !! (k !!! 0)) as [n|]; [|done]. simpl.
    rewrite Node_remove_key_fst. by apply valid_Some in Hs as [? _].
  - apply trie_shape_remove_key.
  - by apply get_value_removed with v.
  - intros k' Hk' Hne. by apply get_value_remove_key.
Qed.

(** C9: [find_key k] is true exactly when [get_value k] is not the
    sentinel. *)
Theorem find_key_get_value t k :
  find_key t k = true ↔ get_value t k ≠ INVALID.
Proof. apply find_key_true. Qed.

(** C10, append only: on every trie, for every query and every output
    sequence, [get_values] returns the output sequence it was given followed
    by what it returns on an empty output sequence; the trie is only read. *)
Theorem get_values_appends t q values :
  get_values t q values = values ++ get_values t q [].
Proof.
  unfold get_values. destruct (head_ t !! (q !!! 0)) as [n|].
  - by rewrite (Node_get_values_spec n _ values), (Node_get_values_spec n _ []).
  - by rewrite app_nil_r.
Qed.

(** ** Further properties of the refined header *)

Local Abbreviation compactb := (compactb (K := K) INVALID).
Local Abbreviation trie_compactb := (trie_compactb (K := K) INVALID).
Local Abbreviation additions := (additions (K := K)).

(** X1: on every trie and for every key, [remove_key] returns what
    [get_value] returns for that key just before the call. *)
Theorem remove_key_returns_get_value t k :
  (remove_key t k).1 = get_value t k.
Proof.
  unfold remove_key, get_value.
  destruct (head_ t !! (k !!! 0)) as [n|]; [|done]. apply Node_remove_key_fst.
Qed.

(** X2: removing a key that the trie does not hold leaves the trie exactly
    as it was, and where the root table has a subtree for the first symbol
    the call returns the sentinel. *)
Theorem remove_key_not_held t k :
  stored t k = None →
  (remove_key t k).2 = t ∧
  (is_Some (head_ t !! (k !!! 0)) → (remove_key t k).1 = INVALID).
Proof.
  intros Hs. split; [by apply remove_key_absent|].
  intros [n Hn]. by destruct (absent_in_subtree t k n Hn Hs).
Qed.

(** X3: a second [remove_key] of the same key changes nothing, and where the
    root table has a subtree for the first symbol it returns the sentinel. *)
Theorem remove_key_twice t k :
  k ≠ [] →
  (remove_key (remove_key t k).2 k).2 = (remove_key t k).2 ∧
  (is_Some (head_ t !! (k !!! 0)) →
   (remove_key (remove_key t k).2 k).1 = INVALID).
Proof.
  intros Hk.
  assert (stored (remove_key t k).2 k = None) as Hs.
  { rewrite stored_remove_key by done. by rewrite decide_True. }
  split; [by apply remove_key_absent|].
  intros [n Hn].
  assert (is_Some (head_ (remove_key t k).2 !! (k !!! 0))) as [n' Hn'].
  { unfold remove_key. rewrite Hn. simpl. rewrite lookup_insert_eq. by eexists. }
  by destruct (absent_in_subtree _ k n' Hn' Hs).
Qed.

(** X4: [remove_key] right after [add_key] of the same key returns the
    inserted value, whatever the trie held before, and the key is then not
    held. *)
Theorem remove_key_after_add_key t k v :
  k ≠ [] →
  (remove_key (add_key t k v) k).1 = v ∧
  stored (remove_key (add_key t k v) k).2 k = None ∧
  find_key (remove_key (add_key t k v) k).2 k = false.
Proof.
  intros Hk.
  assert ((remove_key (add_key t k v) k).1 = get_value (add_key t k v) k) as E.
  { unfold remove_key, get_value.
    destruct (head_ (add_key t k v) !! (k !!! 0)); [|done].
    apply Node_remove_key_fst. }
  split; [by rewrite E, get_value_add_key_same|].
  assert (stored (remove_key (add_key t k v) k).2 k = None) as Hs.
  { rewrite stored_remove_key by done. by rewrite decide_True. }
  split; [done|]. apply find_key_false.
  assert (is_Some (head_ (remove_key (add_key t k v) k).2 !! (k !!! 0)))
    as [n' Hn'].
  { unfold remove_key, add_key. cbn [head_]. rewrite lookup_insert_eq. simpl.
    rewrite lookup_insert_eq. by eexists. }
  unfold stored in Hs. unfold get_value. rewrite Hn' in Hs |- *.
  by apply valid_None.
Qed.

Lemma length_omap_le {A B} (f : A → option B) (l : list A) :
  length (omap f l) ≤ length l.
Proof.
  induction l as [|a l IH]; csimpl; [done|]. destruct (f a); simpl; lia.
Qed.

(** X5: for a non-empty query, what [get_values] appends never contains the
    sentinel and is never longer than the query. *)
Theorem get_values_bounds t q values :
  q ≠ [] →
  ∃ new, get_values t q values = values ++ new ∧
         Forall (λ v, v ≠ INVALID) new ∧ length new ≤ length q.
Proof.
  intros Hq. eexists. split; [by apply get_values_stored|]. split.
  - apply Forall_forall. intros v Hv.
    apply list_elem_of_omap in Hv as (j & _ & Hj).
    by apply stored_Some in Hj as [_ ?].
  - etrans; [apply length_omap_le|]. by rewrite length_seq.
Qed.

(** X6: when the trie holds the query itself, its value is the last one that
    [get_values] appends. *)
Theorem get_values_last t q v :
  q ≠ [] → stored t q = Some v → last (get_values t q []) = Some v.
Proof.
  intros Hq Hs. rewrite get_values_stored by done. simpl.
  destruct (length q) as [|n] eqn:Hn; [by destruct q|].
  rewrite seq_S, omap_app. csimpl.
  rewrite <- Hn, firstn_all, Hs.
  apply last_snoc.
Qed.

(** X7: shortening the query to its first [n] symbols, [n] at least 1,
    shortens the result of [get_values] to a prefix of it. *)
Theorem get_values_take t q n :
  q ≠ [] → 1 ≤ n →
  get_values t (take n q) [] `prefix_of` get_values t q [].
Proof.
  intros Hq Hn. destruct (decide (length q ≤ n)) as [Hle|Hgt].
  { by rewrite take_ge. }
  assert (take n q ≠ []) as Hq'.
  { intros E. apply (f_equal length) in E. rewrite length_take in E.
    simpl in E. lia. }
  rewrite !get_values_stored by done. simpl.
  rewrite length_take, Nat.min_l by lia.
  replace (length q) with (n + (length q - n)) by lia.
  rewrite seq_app, omap_app. eexists.
  f_equal. apply list_omap_ext, Forall2_same_length_lookup_2; [done|].
  intros i j j' Hj Hj'. simplify_eq.
  apply lookup_seq in Hj as [-> Hi].
  by rewrite take_take, Nat.min_l by lia.
Qed.

Lemma compactb_node c d v :
  compactb (mkNode c d v) = true ↔
    (v ≠ INVALID ∨ 2 ≤ size (child_table c)) ∧
    ∀ k ch, find_child c k = Some ch → compactb ch = true.
Proof.
  cbn [compactb]. rewrite andb_true_iff, orb_true_iff, negb_true_iff.
  rewrite Z.eqb_neq, Nat.leb_le.
  destruct c as [m|]; simpl.
  - rewrite bool_decide_eq_true. unfold map_Forall.
    split; intros [Hn Hc]; (split; [done|]).
    + intros k ch Hk. apply (Hc k). by rewrite lookup_fmap, Hk.
    + intros k b. rewrite lookup_fmap.
      destruct (m !! k) as [ch|] eqn:Hk; [|done]. intros [= <-]. by apply (Hc k).
  - split; intros [Hn _]; (split; [done|done]).
Qed.

Lemma size_insert_ge {A} (m : gmap K A) k n : size m ≤ size (<[k := n]> m).
Proof. rewrite map_size_insert. destruct (m !! k); simpl; lia. Qed.

Lemma compactb_cut_head n len :
  compactb n = true → compactb (cut_head n len) = true.
Proof. destruct n as [c d v]. unfold cut_head. by rewrite !compactb_node. Qed.

Lemma compactb_Add on key value :
  value ≠ INVALID →
  (∀ n, on = Some n → compactb n = true) →
  compactb (Node_Add on key value) = true.
Proof.
  intros Hv. remember (length key) as len eqn:Hlen. revert on key Hlen.
  induction len as [len IH] using lt_wf_ind. intros on key -> Hon.
  destruct on as [[c d v]|].
  2:{ rewrite Node_Add_None. apply compactb_node. split; [by left|done]. }
  specialize (Hon _ eq_refl). pose proof Hon as Hon'.
  apply compactb_node in Hon' as [Hn Hc].
  destruct (edge_view_total d key) as [p x d' y key' Hxy|d y key'|key x d'|d].
  - rewrite Node_Add_split by done. apply compactb_node. split.
    + right. unfold child_table. rewrite map_size_insert_None by by rewrite lookup_insert_ne.
      by rewrite map_size_insert_None.
    + intros k ch. unfold find_child. intros Hk.
      apply lookup_insert_Some in Hk as [[<- <-]|[Hne Hk]].
      * apply compactb_node. split; [by left|done].
      * apply lookup_insert_Some in Hk as [[<- <-]|[_ Hk]]; [|done].
        by apply compactb_cut_head.
  - rewrite Node_Add_longer. apply compactb_node. split.
    + destruct Hn as [Hn|Hn]; [by left|right]. unfold child_table.
      etrans; [done|apply size_insert_ge].
    + intros k ch. unfold find_child. intros Hk.
      apply lookup_insert_Some in Hk as [[<- <-]|[Hne Hk]].
      * apply (IH (length key')); [rewrite length_app; simpl; lia|done|].
        intros n Hn'. by apply (Hc y).
      * rewrite child_table_lookup in Hk. by apply (Hc k).
  - rewrite Node_Add_shorter. apply compactb_node. split; [by left|].
    intros k ch. unfold find_child. intros Hk.
    apply lookup_insert_Some in Hk as [[<- <-]|[_ Hk]]; [|done].
    by apply compactb_cut_head.
  - rewrite Node_Add_same. apply compactb_node. split; [by left|done].
Qed.

Lemma trie_compactb_spec t :
  trie_compactb t = true ↔ ∀ a n, head_ t !! a = Some n → compactb n = true.
Proof.
  unfold trie_compactb. rewrite bool_decide_eq_true. unfold map_Forall.
  split.
  - intros Hc a n Ha. apply (Hc a). by rewrite lookup_fmap, Ha.
  - intros Hc a b. rewrite lookup_fmap.
    destruct (head_ t !! a) as [n|] eqn:Ha; [|done]. intros [= <-].
    by apply (Hc a).
Qed.

Lemma trie_compactb_add_key t k v :
  v ≠ INVALID → trie_compactb t = true → trie_compactb (add_key t k v) = true.
Proof.
  intros Hv Ht. apply trie_compactb_spec. intros a n. unfold add_key.
  cbn [head_]. intros Ha.
  apply lookup_insert_Some in Ha as [[<- <-]|[_ Ha]].
  - apply compactb_Add; [done|]. intros n Hn.
    by apply (proj1 (trie_compactb_spec t) Ht (k !!! 0)).
  - by apply (proj1 (trie_compactb_spec t) Ht a).
Qed.

(** X8: in a trie built from the empty one by insertions of valid values
    only, every node is terminal or has at least two children, whatever the
    released storage reads as. *)
Theorem additions_keep_compact kvs :
  Forall (λ kv, kv.2 ≠ INVALID) kvs →
  trie_compactb (run (additions kvs)) = true.
Proof.
  intros Hkvs. induction kvs as [|kv kvs IH] using rev_ind.
  - by apply trie_compactb_spec.
  - apply Forall_app in Hkvs as [Hkvs Hkv%Forall_inv].
    unfold additions. rewrite fmap_app. simpl. rewrite run_snoc. simpl.
    apply trie_compactb_add_key; [done|]. by apply IH.
Qed.

(** X9: provided that the buffer released in [cut_head] reads back
    unchanged, [add_key] leaves the value held for every other key as it
    was. *)
Theorem add_key_keeps_other_keys t key value k' :
  (∀ d j, j < length d → released d j = d !!! j) →
  key ≠ [] → k' ≠ [] → value ≠ INVALID → k' ≠ key →
  stored (add_key t key value) k' = stored t k'.
Proof.
  intros Hr Hkey Hk' Hv Hne. rewrite stored_add_key by done.
  by rewrite decide_False.
Qed.

(** X10: provided that the buffers released in [cut_head] read back
    unchanged, after any history of valid calls on the empty trie the trie
    holds exactly the keys inserted and not removed since, each with the
    value of its latest insertion. *)
Theorem run_holds_contents ops key :
  (∀ d j, j < length d → released d j = d !!! j) →
  Forall op_ok ops → key ≠ [] →
  stored (run ops) key = contents ops !! key.
Proof. intros Hr Hops Hkey. by apply stored_run. Qed.

(** X23: provided that the buffers released in [cut_head] read back
    unchanged, after any history of valid calls on the empty trie
    [get_values] appends exactly the values of the keys inserted and not
    removed since that are prefixes of the query, in increasing order of
    their length. *)
Theorem get_values_lists_contents ops q values :
  (∀ d j, j < length d → released d j = d !!! j) →
  Forall op_ok ops → q ≠ [] →
  get_values (run ops) q values =
    values ++ omap (λ j, contents ops !! take j q) (seq 1 (length q)).
Proof. intros Hr Hops Hq. by apply get_values_history. Qed.

(** X11: provided that the sentinel is not 0, [find_key] answers true
    exactly when the trie holds the key or the root table has no subtree
    for the first symbol of the key. *)
Theorem find_key_true_iff t key :
  INVALID ≠ 0%Z →
  find_key t key = true ↔
    is_Some (stored t key) ∨ head_ t !! (key !!! 0) = None.
Proof.
  intros Hinv. rewrite find_key_true. unfold get_value, stored.
  destruct (head_ t !! (key !!! 0)) as [n|].
  - unfold valid.
    destruct (decide (Node_get_value n (drop 1 key) = INVALID)) as [E|E]; split.
    + done.
    + intros [[? [=]]|[=]].
    + intros _. left. by eexists.
    + done.
  - split; [by right|]. intros _. congruence.
Qed.

(** Counting nodes *)

Local Abbreviation table_sum := (table_sum (K := K)).
Local Abbreviation node_count := (node_count (K := K)).
Local Abbreviation trie_node_count := (trie_node_count (K := K)).

Lemma table_sum_empty : table_sum ∅ = 0.
Proof. apply map_fold_empty. Qed.

Lemma table_sum_insert_None (m : gmap K nat) i x :
  m !! i = None → table_sum (<[i := x]> m) = x + table_sum m.
Proof.
  intros Hi. unfold table_sum. rewrite map_fold_insert_L; [done| |done].
  intros. lia.
Qed.

Lemma table_sum_insert_Some (m : gmap K nat) i x y :
  m !! i = Some y → table_sum (<[i := x]> m) + y = x + table_sum m.
Proof.
  intros Hi. rewrite <- (insert_delete_eq m i x).
  rewrite <- (insert_delete_id m i y) at 2 by done.
  rewrite !table_sum_insert_None by apply lookup_delete_eq. lia.
Qed.

Lemma node_count_insert (m : gmap K Node) i n :
  table_sum (node_count <$> <[i := n]> m)
    + from_option node_count 0 (m !! i)
  = node_count n + table_sum (node_count <$> m).
Proof.
  rewrite fmap_insert. destruct (m !! i) as [old|] eqn:Hi; simpl.
  - apply table_sum_insert_Some. by rewrite lookup_fmap, Hi.
  - rewrite table_sum_insert_None by by rewrite lookup_fmap, Hi. lia.
Qed.

Lemma node_count_node c d v :
  node_count (mkNode c d v) = S (table_sum (node_count <$> child_table c)).
Proof.
  destruct c; simpl; [done|]. by rewrite fmap_empty, table_sum_empty.
Qed.

Lemma node_count_cut_head n len : node_count (cut_head n len) = node_count n.
Proof. by destruct n. Qed.

Lemma child_table_Some (m : gmap K Node) : child_table (Some m) = m.
Proof. done. Qed.

Lemma node_count_Add on key value :
  from_option node_count 0 on ≤ node_count (Node_Add on key value)
  ∧ node_count (Node_Add on key value) ≤ from_option node_count 0 on + 2.
Proof.
  remember (length key) as len eqn:Hlen. revert on key Hlen.
  induction len as [len IH] using lt_wf_ind. intros on key ->.
  destruct on as [[c d v]|]; cbn [from_option].
  2:{ rewrite Node_Add_None. simpl. lia. }
  destruct (edge_view_total d key) as [p x d' y key' Hxy|d y key'|key x d'|d].
  - rewrite Node_Add_split by done. rewrite (node_count_node (Some _)).
    rewrite child_table_Some.
    pose proof (node_count_insert
      (<[x := cut_head (mkNode c (p ++ x :: d') v) (S (length p))]> ∅) y
      (mkNode None key' value)) as E1.
    rewrite lookup_insert_ne, lookup_empty in E1 by done.
    pose proof (node_count_insert ∅ x
      (cut_head (mkNode c (p ++ x :: d') v) (S (length p)))) as E2.
    rewrite lookup_empty, fmap_empty, table_sum_empty in E2.
    rewrite node_count_cut_head in E2. simpl in E1, E2. simpl. lia.
  - rewrite Node_Add_longer. rewrite (node_count_node (Some _)).
    rewrite (node_count_node c), child_table_Some.
    pose proof (node_count_insert (child_table c) y
      (Node_Add (find_child c y) key' value)) as E.
    rewrite child_table_lookup in E.
    destruct (IH (length key') ltac:(rewrite length_app; simpl; lia)
                (find_child c y) key' eq_refl) as [Hlo Hhi].
    lia.
  - rewrite Node_Add_shorter. rewrite (node_count_node (Some _)).
    rewrite child_table_Some.
    pose proof (node_count_insert ∅ x
      (cut_head (mkNode c (key ++ x :: d') v) (S (length key)))) as E2.
    rewrite lookup_empty, fmap_empty, table_sum_empty in E2.
    rewrite node_count_cut_head in E2. simpl in E2. simpl. lia.
  - rewrite Node_Add_same. simpl. lia.
Qed.

Lemma node_count_remove n key :
  node_count (Node_remove_key n key).2 = node_count n.
Proof.
  remember (length key) as len eqn:Hlen. revert n key Hlen.
  induction len as [len IH] using lt_wf_ind. intros [c d v] key ->.
  destruct (decide (d `prefix_of` key)) as [[r ->]|Hp].
  - rewrite Node_remove_key_prefix. destruct r as [|z r']; [done|].
    destruct (find_child c z) as [ch|] eqn:Hch; [|done]. cbn [snd].
    rewrite (node_count_node (Some _)), (node_count_node c).
    unfold child_table at 1.
    pose proof (node_count_insert (child_table c) z
      (Node_remove_key ch r').2) as E.
    rewrite child_table_lookup, Hch in E. simpl in E.
    rewrite (IH (length r')) in E; [lia|rewrite length_app; simpl; lia|done].
  - by rewrite Node_remove_key_not_prefix.
Qed.

(** X20: [add_key] adds at most two nodes to the trie and removes none,
    whatever the key, the value and the trie. *)
Theorem add_key_node_count t k v :
  trie_node_count t ≤ trie_node_count (add_key t k v)
  ∧ trie_node_count (add_key t k v) ≤ trie_node_count t + 2.
Proof.
  unfold trie_node_count, add_key. cbn [head_].
  pose proof (node_count_insert (head_ t) (k !!! 0)
    (Node_Add (head_ t !! (k !!! 0)) (drop 1 k) v)) as E.
  destruct (node_count_Add (head_ t !! (k !!! 0)) (drop 1 k) v). lia.
Qed.

(** X21: [remove_key] neither adds nor removes a node, whether or not it
    finds the key. *)
Theorem remove_key_node_count t k :
  trie_node_count (remove_key t k).2 = trie_node_count t.
Proof.
  unfold trie_node_count, remove_key.
  destruct (head_ t !! (k !!! 0)) as [n|] eqn:Hn; [|done]. cbn [snd head_].
  pose proof (node_count_insert (head_ t) (k !!! 0)
    (Node_remove_key n (drop 1 k)).2) as E.
  rewrite Hn, node_count_remove in E. simpl in E. lia.
Qed.

End Properties.

(** * Properties of the first header *)

Section FirstHeaderProperties.

Context {K : Type} `{Countable K} `{Inhabited K}.
Variable bits : Z.

Local Abbreviation INV_ := (V1.INV_ bits).
Local Abbreviation Node1 := (V1.Node (K := K)).
Local Abbreviation mkNode1 := (V1.mkNode (K := K)).
Local Abbreviation get1 := (V1.Node_get_value (K := K) bits).
Local Abbreviation remove1 := (V1.Node_remove_key (K := K) bits).
Local Abbreviation values1 := (V1.Node_get_values (K := K) bits).
Local Abbreviation Add1 := (V1.Node_Add (K := K) bits).
Local Abbreviation filed := (V1.filed (K := K)).
Local Abbreviation tail_ne1 := (V1.tail_ne (K := K)).
Local Abbreviation mismatch1 := (V1.mismatch1 (K := K)).
Local Abbreviation V1_lookup := (V1.Node_lookup (K := K) bits).

Lemma V1_get_value_eq d v c key :
  get1 (mkNode1 d v c) key =
    if length key <? length d then INV_
    else if tail_ne1 d key (length d) then INV_
    else if length key =? length d then v
    else match c !! (key !!! length d) with
         | None => INV_
         | Some ch => get1 ch (drop (length d) key)
         end.
Proof.
  cbn [V1.Node_get_value]. rewrite lookup_fmap.
  by destruct (c !! (key !!! length d)).
Qed.

Lemma V1_remove_key_eq d v c key :
  remove1 (mkNode1 d v c) key =
    if length key <? length d then (INV_, mkNode1 d v c)
    else if tail_ne1 d key (length d) then (INV_, mkNode1 d v c)
    else if length key =? length d then (v, mkNode1 d INV_ c)
    else match c !! (key !!! length d) with
         | None => (INV_, mkNode1 d v c)
         | Some ch =>
             ((remove1 ch (drop (length d) key)).1,
              mkNode1 d v
                (<[key !!! length d := (remove1 ch (drop (length d) key)).2]>
                   c))
         end.
Proof.
  cbn [V1.Node_remove_key]. rewrite lookup_fmap.
  by destruct (c !! (key !!! length d)).
Qed.

Lemma V1_get_values_eq d v c buffer values :
  values1 (mkNode1 d v c) buffer values =
    if length buffer <? length d then values
    else if length d <? length buffer then
      match c !! (buffer !!! length d) with
      | Some ch =>
          values1 ch (drop (length d) buffer) (push_valid INV_ v values)
      | None => push_valid INV_ v values
      end
    else push_valid INV_ v values.
Proof.
  cbn [V1.Node_get_values]. rewrite lookup_fmap.
  by destruct (c !! (buffer !!! length d)).
Qed.

Lemma V1_Add_eq d v c key value :
  Add1 (Some (mkNode1 d v c)) key value =
    let i := mismatch1 d key in
    if i <? Nat.min (length d) (length key) then
      mkNode1 (take i key) INV_
        (<[key !!! i := mkNode1 (drop i key) value ∅]>
           (<[d !!! i := mkNode1 (drop i d) v c]> ∅))
    else if length d <? length key then
      mkNode1 d v
        (<[key !!! i := Add1 (c !! (key !!! i)) (drop i key) value]> c)
    else if length key <? length d then
      mkNode1 (take (length key) key) value
        (<[d !!! i := mkNode1 (drop i d) v c]> ∅)
    else mkNode1 d value c.
Proof.
  cbn [V1.Node_Add V1.Node_Add_to]. cbv zeta. rewrite lookup_fmap.
  by destruct (c !! (key !!! mismatch1 d key)).
Qed.

(** How a key [b :: k] relates to an edge [z :: d]: the symbols at index 0
    are not compared. *)

Lemma V1_tail_ne_false z d b k :
  length d ≤ length k →
  tail_ne1 (z :: d) (b :: k) (S (length d)) = false ↔ d `prefix_of` k.
Proof.
  intros Hl. unfold V1.tail_ne. rewrite negb_false_iff, bool_decide_eq_true.
  cbn [take drop]. rewrite firstn_all, !drop_0. split.
  - intros ->. apply prefix_take.
  - intros [r ->]. by rewrite take_app_length.
Qed.

Lemma V1_get_value_match z d v c b r :
  get1 (mkNode1 (z :: d) v c) (b :: d ++ r) =
    match r with
    | [] => v
    | y :: r' =>
        match c !! y with
        | Some ch => get1 ch (y :: r')
        | None => INV_
        end
    end.
Proof.
  rewrite V1_get_value_eq. cbn [length]. rewrite length_app.
  destruct (Nat.ltb_spec (S (length d + length r)) (S (length d))); [lia|].
  assert (tail_ne1 (z :: d) (b :: d ++ r) (S (length d)) = false) as ->.
  { apply V1_tail_ne_false; [rewrite length_app; lia|by apply prefix_app_r]. }
  destruct r as [|y r']; simpl.
  - by rewrite Nat.add_0_r, Nat.eqb_refl.
  - destruct (Nat.eqb_spec (length d + S (length r')) (length d)); [lia|].
    rewrite list_lookup_total_middle by done.
    by rewrite drop_app_length.
Qed.

Lemma V1_get_value_nomatch z d v c key :
  ¬ d `prefix_of` drop 1 key → get1 (mkNode1 (z :: d) v c) key = INV_.
Proof.
  intros Hp. rewrite V1_get_value_eq.
  destruct (Nat.ltb_spec (length key) (length (z :: d))) as [|Hl]; [done|].
  destruct key as [|b k]; [simpl in Hl; lia|]. simpl in Hl, Hp.
  rewrite drop_0 in Hp. cbn [length].
  destruct (tail_ne1 (z :: d) (b :: k) (S (length d))) eqn:E; [done|].
  apply V1_tail_ne_false in E; [done|lia].
Qed.

Lemma V1_remove_key_match z d v c b r :
  remove1 (mkNode1 (z :: d) v c) (b :: d ++ r) =
    match r with
    | [] => (v, mkNode1 (z :: d) INV_ c)
    | y :: r' =>
        match c !! y with
        | Some ch =>
            ((remove1 ch (y :: r')).1,
             mkNode1 (z :: d) v (<[y := (remove1 ch (y :: r')).2]> c))
        | None => (INV_, mkNode1 (z :: d) v c)
        end
    end.
Proof.
  rewrite V1_remove_key_eq. cbn [length]. rewrite length_app.
  destruct (Nat.ltb_spec (S (length d + length r)) (S (length d))); [lia|].
  assert (tail_ne1 (z :: d) (b :: d ++ r) (S (length d)) = false) as ->.
  { apply V1_tail_ne_false; [rewrite length_app; lia|by apply prefix_app_r]. }
  destruct r as [|y r']; simpl.
  - by rewrite Nat.add_0_r, Nat.eqb_refl.
  - destruct (Nat.eqb_spec (length d + S (length r')) (length d)); [lia|].
    rewrite list_lookup_total_middle by done.
    by rewrite drop_app_length.
Qed.

Lemma V1_remove_key_nomatch z d v c key :
  ¬ d `prefix_of` drop 1 key →
  remove1 (mkNode1 (z :: d) v c) key = (INV_, mkNode1 (z :: d) v c).
Proof.
  intros Hp. rewrite V1_remove_key_eq.
  destruct (Nat.ltb_spec (length key) (length (z :: d))) as [|Hl]; [done|].
  destruct key as [|b k]; [simpl in Hl; lia|]. simpl in Hl, Hp.
  rewrite drop_0 in Hp. cbn [length].
  destruct (tail_ne1 (z :: d) (b :: k) (S (length d))) eqn:E; [done|].
  apply V1_tail_ne_false in E; [done|lia].
Qed.

(** The branches of [Add] *)

Lemma lookup_total_cons_middle (b : K) p y r :
  (b :: p ++ y :: r) !!! S (length p) = y.
Proof. apply (list_lookup_total_middle (b :: p)). done. Qed.

Lemma take_cons_middle (b : K) p r : take (S (length p)) (b :: p ++ r) = b :: p.
Proof. simpl. by rewrite take_app_length. Qed.

Lemma drop_cons_middle (b : K) p r : drop (S (length p)) (b :: p ++ r) = r.
Proof. simpl. by rewrite drop_app_length. Qed.

Lemma V1_mismatch1_cons z d b k : mismatch1 (z :: d) (b :: k) = S (mismatch d k).
Proof. unfold V1.mismatch1. simpl. by rewrite !drop_0. Qed.

Lemma V1_Add_split z b p x d' y k' v c value :
  x ≠ y →
  Add1 (Some (mkNode1 (z :: p ++ x :: d') v c)) (b :: p ++ y :: k') value =
    mkNode1 (b :: p) INV_
      (<[y := mkNode1 (y :: k') value ∅]> (<[x := mkNode1 (x :: d') v c]> ∅)).
Proof.
  intros Hxy. rewrite V1_Add_eq. cbv zeta.
  rewrite V1_mismatch1_cons, mismatch_split by done.
  cbn [length]. rewrite !length_app. cbn [length].
  destruct (Nat.ltb_spec (S (length p))
    (Nat.min (S (length p + S (length d'))) (S (length p + S (length k')))));
    [|lia].
  by rewrite !lookup_total_cons_middle, take_cons_middle, !drop_cons_middle.
Qed.

Lemma V1_Add_longer z b d y k' v c value :
  Add1 (Some (mkNode1 (z :: d) v c)) (b :: d ++ y :: k') value =
    mkNode1 (z :: d) v (<[y := Add1 (c !! y) (y :: k') value]> c).
Proof.
  rewrite V1_Add_eq. cbv zeta. rewrite V1_mismatch1_cons, mismatch_longer.
  cbn [length]. rewrite !length_app. cbn [length].
  destruct (Nat.ltb_spec (S (length d))
    (Nat.min (S (length d)) (S (length d + S (length k'))))); [lia|].
  destruct (Nat.ltb_spec (S (length d)) (S (length d + S (length k'))));
    [|lia].
  by rewrite !lookup_total_cons_middle, !drop_cons_middle.
Qed.

Lemma V1_Add_shorter z b k x d' v c value :
  Add1 (Some (mkNode1 (z :: k ++ x :: d') v c)) (b :: k) value =
    mkNode1 (b :: k) value (<[x := mkNode1 (x :: d') v c]> ∅).
Proof.
  rewrite V1_Add_eq. cbv zeta. rewrite V1_mismatch1_cons, mismatch_shorter.
  cbn [length]. rewrite !length_app. cbn [length].
  destruct (Nat.ltb_spec (S (length k))
    (Nat.min (S (length k + S (length d'))) (S (length k)))); [lia|].
  destruct (Nat.ltb_spec (S (length k + S (length d'))) (S (length k)));
    [lia|].
  destruct (Nat.ltb_spec (S (length k)) (S (length k + S (length d'))));
    [|lia].
  rewrite !lookup_total_cons_middle, !drop_cons_middle.
  cbn [take]. by rewrite firstn_all.
Qed.

Lemma V1_Add_same z b d v c value :
  Add1 (Some (mkNode1 (z :: d) v c)) (b :: d) value = mkNode1 (z :: d) value c.
Proof.
  rewrite V1_Add_eq. cbv zeta. rewrite V1_mismatch1_cons.
  pose proof (mismatch_longer d []) as E. rewrite app_nil_r in E. rewrite E.
  cbn [length].
  destruct (Nat.ltb_spec (S (length d))
    (Nat.min (S (length d)) (S (length d)))); [lia|].
  destruct (Nat.ltb_spec (S (length d)) (S (length d))); [lia|done].
Qed.

(** Lookup after insertion *)

Lemma V1_get_value_strip z z' q d v c b b' r :
  get1 (mkNode1 (z :: q ++ d) v c) (b :: q ++ r) =
  get1 (mkNode1 (z' :: d) v c) (b' :: r).
Proof.
  destruct (decide (d `prefix_of` r)) as [[r' ->]|Hn].
  - rewrite app_assoc. by rewrite !V1_get_value_match.
  - rewrite !V1_get_value_nomatch; [done| |]; simpl; rewrite drop_0; [done|].
    intros Hp. apply Hn. by apply prefix_app_inv in Hp.
Qed.

Lemma V1_get_value_leaf z key v b k' :
  get1 (mkNode1 (z :: key) v ∅) (b :: k') =
    if decide (k' = key) then v else INV_.
Proof.
  destruct (decide (key `prefix_of` k')) as [[r ->]|Hn].
  - rewrite V1_get_value_match. destruct r as [|y r']; simpl.
    + by rewrite app_nil_r, decide_True.
    + rewrite lookup_empty, decide_False; [done|].
      intros E. apply (f_equal length) in E. rewrite length_app in E.
      simpl in E. lia.
  - rewrite V1_get_value_nomatch by (simpl; by rewrite drop_0).
    rewrite decide_False; [done|]. by intros ->.
Qed.

Lemma V1_get_value_Add on z b key value b' k' :
  (∀ n, on = Some n → filed z n) →
  get1 (Add1 on (b :: key) value) (b' :: k') =
    if decide (k' = key) then value else V1_lookup on (b' :: k').
Proof.
  remember (length key) as n eqn:Hn. revert on z b key b' k' Hn.
  induction n as [n IH] using lt_wf_ind. intros on z b key b' k' -> Hon.
  destruct on as [nd|]; cbn [V1.Node_lookup].
  2:{ cbn [V1.Node_Add]. unfold V1.Node_new. apply V1_get_value_leaf. }
  specialize (Hon _ eq_refl). destruct Hon as [z d0 v c Hc].
  destruct (edge_view_total d0 key) as [p x d' y key' Hxy|d y key'|key x d'|d].
  - rewrite V1_Add_split by done.
    destruct (decide (p `prefix_of` k')) as [[r ->]|Hp].
    + rewrite V1_get_value_match. destruct r as [|y' r']; cbv match.
      * rewrite decide_False by (intros ?; simplify_list_eq).
        rewrite V1_get_value_nomatch; [done|]. cbn [drop].
        intros Hp. apply prefix_app_inv in Hp. by apply prefix_nil_not in Hp.
      * destruct (decide (y' = y)) as [->|Hzy].
        { rewrite lookup_insert_eq, V1_get_value_leaf.
          destruct (decide (r' = key')) as [->|Hr].
          - by rewrite decide_True.
          - rewrite decide_False by (intros ?; simplify_list_eq).
            rewrite V1_get_value_nomatch; [done|]. cbn [drop].
            intros Hp. apply prefix_app_inv, prefix_cons_inv_1 in Hp. done. }
        rewrite lookup_insert_ne by done.
        rewrite decide_False by (intros ?; simplify_list_eq).
        destruct (decide (y' = x)) as [->|Hzx].
        { rewrite lookup_insert_eq.
          rewrite <- (app_nil_l d') at 1. rewrite <- (app_nil_l r') at 1.
          rewrite (V1_get_value_strip x z [] d' v c x b' r').
          rewrite (cons_middle x p d'), (cons_middle x p r'), !app_assoc.
          by rewrite (V1_get_value_strip z z (p ++ [x]) d' v c b' b' r'). }
        rewrite lookup_insert_ne, lookup_empty by done.
        rewrite V1_get_value_nomatch; [done|]. cbn [drop].
        intros Hp. apply prefix_app_inv, prefix_cons_inv_1 in Hp. done.
    + rewrite !V1_get_value_nomatch; [| |]; cbn [drop]; [| |done].
      * rewrite decide_False; [done|]. intros ->. apply Hp.
        by apply prefix_app_r.
      * intros Hp'. apply Hp. etrans; [|done]. by apply prefix_app_r.
  - rewrite V1_Add_longer.
    destruct (decide (d `prefix_of` k')) as [[r ->]|Hp].
    + rewrite !V1_get_value_match. destruct r as [|y' r']; cbv match.
      * by rewrite decide_False by (intros ?; simplify_list_eq).
      * destruct (decide (y' = y)) as [->|Hzy].
        { rewrite lookup_insert_eq.
          rewrite (IH (length key') ltac:(rewrite length_app; simpl; lia)
                     (c !! y) y y key' y r' eq_refl).
          2:{ intros n Hn. by apply (Hc y). }
          destruct (decide (r' = key')) as [->|Hr].
          - by rewrite decide_True.
          - rewrite decide_False by (intros ?; simplify_list_eq).
            by destruct (c !! y). }
        rewrite lookup_insert_ne by done.
        by rewrite decide_False by (intros ?; simplify_list_eq).
    + rewrite !V1_get_value_nomatch by done.
      rewrite decide_False; [done|]. intros ->. apply Hp.
      by apply prefix_app_r.
  - rewrite V1_Add_shorter.
    destruct (decide (key `prefix_of` k')) as [[r ->]|Hp].
    + rewrite V1_get_value_match. destruct r as [|y' r']; cbv match.
      * by rewrite app_nil_r, decide_True.
      * rewrite decide_False.
        2:{ intros E. apply (f_equal length) in E. rewrite length_app in E.
            simpl in E. lia. }
        destruct (decide (y' = x)) as [->|Hzx].
        { rewrite lookup_insert_eq.
          rewrite <- (app_nil_l d') at 1. rewrite <- (app_nil_l r') at 1.
          rewrite (V1_get_value_strip x z [] d' v c x b' r').
          rewrite (cons_middle x key d'), (cons_middle x key r'), !app_assoc.
          by rewrite (V1_get_value_strip z z (key ++ [x]) d' v c b' b' r'). }
        rewrite lookup_insert_ne, lookup_empty by done.
        rewrite V1_get_value_nomatch; [done|]. cbn [drop].
        intros Hp. apply prefix_app_inv, prefix_cons_inv_1 in Hp. done.
    + rewrite !V1_get_value_nomatch; [| |]; cbn [drop]; [| |done].
      * rewrite decide_False; [done|]. by intros ->.
      * intros Hp'. apply Hp. etrans; [|done]. by apply prefix_app_r.
  - rewrite V1_Add_same.
    destruct (decide (d `prefix_of` k')) as [[r ->]|Hp].
    + rewrite !V1_get_value_match. destruct r as [|y' r']; cbv match.
      * by rewrite app_nil_r, decide_True.
      * rewrite decide_False; [done|].
        intros E. apply (f_equal length) in E. rewrite length_app in E.
        simpl in E. lia.
    + rewrite !V1_get_value_nomatch by done.
      rewrite decide_False; [done|]. by intros ->.
Qed.

(** The filing invariant *)

Lemma V1_filed_Add on b key value :
  (∀ n, on = Some n → filed b n) → filed b (Add1 on (b :: key) value).
Proof.
  remember (length key) as n eqn:Hn. revert on b key Hn.
  induction n as [n IH] using lt_wf_ind. intros on b key -> Hon.
  destruct on as [nd|].
  2:{ cbn [V1.Node_Add]. unfold V1.Node_new. constructor.
      intros k ch Hk. by rewrite lookup_empty in Hk. }
  specialize (Hon _ eq_refl). destruct Hon as [z d0 v c Hc].
  destruct (edge_view_total d0 key) as [p x d' y key' Hxy|d y key'|key x d'|d].
  - rewrite V1_Add_split by done. constructor. intros k ch Hk.
    apply lookup_insert_Some in Hk as [[<- <-]|[_ Hk]].
    + constructor. intros k ch Hk. by rewrite lookup_empty in Hk.
    + apply lookup_insert_Some in Hk as [[<- <-]|[_ Hk]]; [by constructor|].
      by rewrite lookup_empty in Hk.
  - rewrite V1_Add_longer. constructor. intros k ch Hk.
    apply lookup_insert_Some in Hk as [[<- <-]|[_ Hk]]; [|by apply Hc].
    apply (IH (length key')); [rewrite length_app; simpl; lia|done|].
    intros n Hn. by apply Hc.
  - rewrite V1_Add_shorter. constructor. intros k ch Hk.
    apply lookup_insert_Some in Hk as [[<- <-]|[_ Hk]]; [by constructor|].
    by rewrite lookup_empty in Hk.
  - rewrite V1_Add_same. by constructor.
Qed.

(** Removal *)

Lemma V1_remove_key_fst z n key :
  filed z n → (remove1 n key).1 = get1 n key.
Proof.
  intros Hf. revert key. induction Hf as [z d v c Hc IH]. intros key.
  destruct key as [|b k].
  { by rewrite V1_remove_key_eq, V1_get_value_eq. }
  destruct (decide (d `prefix_of` k)) as [[r ->]|Hp].
  - rewrite V1_remove_key_match, V1_get_value_match.
    destruct r as [|y r']; [done|].
    destruct (c !! y) as [ch|] eqn:Hy; [|done]. cbn [fst]. by apply (IH y).
  - by rewrite V1_remove_key_nomatch, V1_get_value_nomatch.
Qed.

Lemma V1_filed_remove z n key : filed z n → filed z (remove1 n key).2.
Proof.
  intros Hf. revert key. induction Hf as [z d v c Hc IH]. intros key.
  destruct key as [|b k].
  { rewrite V1_remove_key_eq. by constructor. }
  destruct (decide (d `prefix_of` k)) as [[r ->]|Hp].
  - rewrite V1_remove_key_match. destruct r as [|y r']; [by constructor|].
    destruct (c !! y) as [ch|] eqn:Hy; [|by constructor].
    cbn [snd]. constructor. intros k ch' Hk.
    apply lookup_insert_Some in Hk as [[<- <-]|[_ Hk]]; [|by apply Hc].
    by apply (IH y).
  - rewrite V1_remove_key_nomatch by done. by constructor.
Qed.

Lemma V1_get_value_remove z n b key b' k' :
  filed z n →
  get1 (remove1 n (b :: key)).2 (b' :: k') =
    if decide (k' = key) then INV_ else get1 n (b' :: k').
Proof.
  intros Hf. revert b key b' k'. induction Hf as [z d v c Hc IH].
  intros b key b' k'.
  destruct (decide (d `prefix_of` key)) as [[r ->]|Hp].
  - rewrite V1_remove_key_match. destruct r as [|y r']; cbv match.
    + rewrite app_nil_r. cbn [snd].
      destruct (decide (d `prefix_of` k')) as [[r ->]|Hp].
      * rewrite !V1_get_value_match. destruct r as [|y r'].
        { by rewrite app_nil_r, decide_True. }
        rewrite decide_False; [done|].
        intros E. apply (f_equal length) in E. rewrite length_app in E.
        simpl in E. lia.
      * rewrite !V1_get_value_nomatch by done. by destruct (decide _).
    + destruct (c !! y) as [ch|] eqn:Hch; cbn [snd].
      * destruct (decide (d `prefix_of` k')) as [[r ->]|Hp].
        { rewrite !V1_get_value_match. destruct r as [|y' r'']; cbv match.
          { by rewrite decide_False by (intros ?; simplify_list_eq). }
          destruct (decide (y' = y)) as [->|Hyz].
          - rewrite lookup_insert_eq, Hch. rewrite (IH y ch Hch).
            destruct (decide (r'' = r')) as [->|Hr].
            + by rewrite decide_True.
            + by rewrite decide_False by (intros ?; simplify_list_eq).
          - rewrite lookup_insert_ne by done.
            by rewrite decide_False by (intros ?; simplify_list_eq). }
        rewrite !V1_get_value_nomatch by done. by destruct (decide _).
      * destruct (decide (k' = d ++ y :: r')) as [->|Hk]; [|done].
        by rewrite V1_get_value_match, Hch.
  - rewrite V1_remove_key_nomatch by done. cbn [snd].
    destruct (decide (k' = key)) as [->|Hk]; [|done].
    by rewrite V1_get_value_nomatch.
Qed.

Lemma V1_remove_key_absent z n key :
  filed z n → get1 n key = INV_ → (remove1 n key).2 = n.
Proof.
  intros Hf. revert key. induction Hf as [z d v c Hc IH]. intros key.
  destruct key as [|b k].
  { by rewrite V1_remove_key_eq. }
  destruct (decide (d `prefix_of` k)) as [[r ->]|Hp].
  - rewrite V1_remove_key_match, V1_get_value_match.
    destruct r as [|y r']; [by intros ->|].
    destruct (c !! y) as [ch|] eqn:Hch; [|done].
    intros Hv. cbn [snd]. rewrite (IH y ch Hch) by done.
    by rewrite insert_id.
  - by rewrite V1_remove_key_nomatch.
Qed.

(** The root table *)

Local Abbreviation trie1 := (V1.PatriciaTrie (K := K)).
Local Abbreviation add_key1 := (V1.add_key (K := K) bits).
Local Abbreviation remove_key1 := (V1.remove_key (K := K) bits).
Local Abbreviation get_value1 := (V1.get_value (K := K) bits).
Local Abbreviation get_values1 := (V1.get_values (K := K) bits).
Local Abbreviation find_key1 := (V1.find_key (K := K) bits).
Local Abbreviation stored1 := (V1.stored (K := K) bits).
Local Abbreviation run1 := (V1.run (K := K) bits).
Local Abbreviation trie_filed := (V1.trie_filed (K := K)).

Lemma V1_stored_Some (t : trie1) key v :
  stored1 t key = Some v → get_value1 t key = v ∧ v ≠ INV_.
Proof.
  unfold V1.stored, V1.get_value.
  destruct (V1.head_ t !! (key !!! 0)); [|done].
  intros [<- ?]%valid_Some. done.
Qed.

Lemma V1_trie_filed_add_key (t : trie1) key value :
  key ≠ [] → trie_filed t → trie_filed (add_key1 t key value).
Proof.
  destruct key as [|b key]; [done|]. intros _ Ht a n. unfold V1.add_key.
  cbn [V1.head_ lookup_total list_lookup_total]. intros Ha.
  apply lookup_insert_Some in Ha as [[<- <-]|[_ Ha]]; [|by apply Ht].
  apply V1_filed_Add. intros n Hn. by apply Ht.
Qed.

Lemma V1_trie_filed_remove_key (t : trie1) key :
  trie_filed t → trie_filed (remove_key1 t key).2.
Proof.
  intros Ht a n. unfold V1.remove_key.
  destruct (V1.head_ t !! (key !!! 0)) as [n0|] eqn:Hn0; [|by apply Ht].
  cbn [snd V1.head_]. intros Ha.
  apply lookup_insert_Some in Ha as [[<- <-]|[_ Ha]]; [|by apply Ht].
  apply V1_filed_remove. by apply Ht.
Qed.

Lemma V1_stored_add_key (t : trie1) key value k' :
  trie_filed t → key ≠ [] → k' ≠ [] → value ≠ INV_ →
  stored1 (add_key1 t key value) k' =
    if decide (k' = key) then Some value else stored1 t k'.
Proof.
  destruct key as [|a key]; [done|]. destruct k' as [|b k']; [done|].
  intros Ht _ _ Hv. unfold V1.stored, V1.add_key.
  cbn [V1.head_ lookup_total list_lookup_total].
  destruct (decide (b = a)) as [->|Hba].
  - rewrite lookup_insert_eq.
    rewrite (V1_get_value_Add (V1.head_ t !! a) a a key value a k').
    2:{ intros n Hn. by apply Ht. }
    destruct (decide (k' = key)) as [->|Hk].
    + rewrite decide_True by done. by apply valid_Some.
    + rewrite decide_False by congruence.
      destruct (V1.head_ t !! a); [done|]. by apply valid_None.
  - rewrite lookup_insert_ne by done. by rewrite decide_False by congruence.
Qed.

Lemma V1_stored_remove_key (t : trie1) key k' :
  trie_filed t → key ≠ [] → k' ≠ [] →
  stored1 (remove_key1 t key).2 k' =
    if decide (k' = key) then None else stored1 t k'.
Proof.
  destruct key as [|a key]; [done|]. destruct k' as [|b k']; [done|].
  intros Ht _ _. unfold V1.stored, V1.remove_key.
  cbn [lookup_total list_lookup_total].
  destruct (V1.head_ t !! a) as [n|] eqn:Hn; cbn [snd V1.head_].
  - destruct (decide (b = a)) as [->|Hba].
    + rewrite lookup_insert_eq, Hn.
      rewrite (V1_get_value_remove a n a key a k') by by apply Ht.
      destruct (decide (k' = key)) as [->|Hk].
      * rewrite decide_True by done. by apply valid_None.
      * by rewrite decide_False by congruence.
    + rewrite lookup_insert_ne by done. by rewrite decide_False by congruence.
  - destruct (decide (b :: k' = a :: key)) as [E|]; [|done].
    simplify_eq. by rewrite Hn.
Qed.

Lemma V1_remove_key_held (t : trie1) key v :
  trie_filed t → stored1 t key = Some v → (remove_key1 t key).1 = v.
Proof.
  intros Ht. unfold V1.stored, V1.remove_key.
  destruct (V1.head_ t !! (key !!! 0)) as [n|] eqn:Hn; [|done].
  intros [<- _]%valid_Some. cbn [fst]. apply V1_remove_key_fst with (key !!! 0).
  by apply Ht.
Qed.

Lemma V1_remove_key_not_held (t : trie1) key :
  trie_filed t → stored1 t key = None → (remove_key1 t key).2 = t.
Proof.
  intros Ht. unfold V1.stored, V1.remove_key.
  destruct (V1.head_ t !! (key !!! 0)) as [n|] eqn:Hn; [|done].
  intros Hv%valid_None. cbn [snd].
  rewrite (V1_remove_key_absent (key !!! 0)) by (done || by apply Ht).
  destruct t as [h]. cbn [V1.head_] in *. f_equal. by apply insert_id.
Qed.

(** Histories *)

Lemma V1_run_snoc ops o : run1 (ops ++ [o]) = V1.apply_op bits (run1 ops) o.
Proof. apply foldl_snoc. Qed.

Lemma V1_trie_filed_run ops :
  Forall (op_ok INV_) ops → trie_filed (run1 ops).
Proof.
  intros Hops. induction ops as [|o ops IH] using rev_ind.
  - intros a n Ha. unfold V1.run in Ha. cbn in Ha.
    by rewrite lookup_empty in Ha.
  - apply Forall_app in Hops as [Hops Ho%Forall_inv].
    rewrite V1_run_snoc. destruct o as [k v|k]; simpl in Ho |- *.
    + destruct Ho as [Hk Hv]. apply V1_trie_filed_add_key; [done|by apply IH].
    + apply V1_trie_filed_remove_key. by apply IH.
Qed.

Lemma V1_stored_run ops key :
  Forall (op_ok INV_) ops → key ≠ [] →
  stored1 (run1 ops) key = contents ops !! key.
Proof.
  intros Hops Hkey. induction ops as [|o ops IH] using rev_ind.
  - unfold V1.run, contents, V1.stored. simpl. by rewrite !lookup_empty.
  - apply Forall_app in Hops as [Hops Ho%Forall_inv].
    pose proof (V1_trie_filed_run ops Hops) as Hf.
    rewrite V1_run_snoc, contents_snoc. destruct o as [k v|k]; simpl in Ho |- *.
    + destruct Ho as [Hk Hv]. rewrite V1_stored_add_key by done.
      destruct (decide (key = k)) as [->|Hne].
      * by rewrite lookup_insert_eq.
      * rewrite lookup_insert_ne by done. by apply IH.
    + rewrite V1_stored_remove_key by done.
      destruct (decide (key = k)) as [->|Hne].
      * by rewrite lookup_delete_eq.
      * rewrite lookup_delete_ne by done. by apply IH.
Qed.

(** Prefix enumeration *)

Lemma V1_get_values_short z d v c buffer values :
  length buffer < S (length d) →
  values1 (mkNode1 (z :: d) v c) buffer values = values.
Proof.
  intros Hl. rewrite V1_get_values_eq. cbn [length].
  by destruct (Nat.ltb_spec (length buffer) (S (length d))); [|lia].
Qed.

Lemma V1_get_values_long z d v c b k1 k2 values :
  length k1 = length d →
  values1 (mkNode1 (z :: d) v c) (b :: k1 ++ k2) values =
    match k2 with
    | [] => push_valid INV_ v values
    | y :: r' =>
        match c !! y with
        | Some ch => values1 ch (y :: r') (push_valid INV_ v values)
        | None => push_valid INV_ v values
        end
    end.
Proof.
  intros Hl. rewrite V1_get_values_eq. cbn [length]. rewrite length_app, <- Hl.
  destruct (Nat.ltb_spec (S (length k1 + length k2)) (S (length k1))); [lia|].
  destruct k2 as [|y r']; cbn [length].
  - by destruct (Nat.ltb_spec (S (length k1)) (S (length k1 + 0))); [lia|].
  - destruct (Nat.ltb_spec (S (length k1)) (S (length k1 + S (length r'))));
      [|lia].
    by rewrite lookup_total_cons_middle, drop_cons_middle.
Qed.

Lemma split_at (k : list K) n :
  n ≤ length k → ∃ k1 k2, k = k1 ++ k2 ∧ length k1 = n.
Proof.
  intros Hn. exists (take n k), (drop n k). split; [by rewrite take_drop|].
  by rewrite length_take_le.
Qed.

Lemma V1_get_values_app z n q values :
  filed z n → values1 n q values = values ++ values1 n q [].
Proof.
  intros Hf. revert q values. induction Hf as [z d v c Hc IH]. intros q values.
  destruct (decide (length q < S (length d))) as [Hl|Hl].
  { by rewrite !V1_get_values_short, app_nil_r by done. }
  destruct q as [|b k]; [simpl in Hl; lia|]. cbn [length] in Hl.
  destruct (split_at k (length d)) as (k1 & k2 & -> & Hk1); [lia|].
  rewrite !(V1_get_values_long z d v c b k1 k2) by done.
  rewrite !push_valid_valid. cbn [app].
  destruct k2 as [|y r']; [done|].
  destruct (c !! y) as [ch|] eqn:Hy; [|done].
  rewrite (IH y ch Hy), (IH y ch Hy _ (option_list _)). by rewrite app_assoc.
Qed.

Lemma V1_get_values_complete z n b k :
  filed z n →
  omap (λ p, valid INV_ (get1 n (b :: p))) (prefixes k)
    `sublist_of` values1 n (b :: k) [].
Proof.
  intros Hf. revert b k. induction Hf as [z d v c Hc IH]. intros b k.
  destruct (decide (length k < length d)) as [Hl|Hl].
  { rewrite omap_all_None; [apply sublist_nil_l|].
    intros p Hp%prefixes_prefix. rewrite V1_get_value_nomatch.
    - by apply valid_None.
    - intros Hd. change (d `prefix_of` p) in Hd.
      pose proof (prefix_length _ _ Hp). pose proof (prefix_length _ _ Hd).
      lia. }
  destruct (split_at k (length d)) as (k1 & k2 & -> & Hk1); [lia|].
  rewrite omap_prefixes_skip.
  2:{ intros p Hp Hne. rewrite V1_get_value_nomatch; [by apply valid_None|].
      intros Hd. change (d `prefix_of` p) in Hd. apply Hne.
      apply prefix_length_eq; [done|]. apply prefix_length in Hd. lia. }
  destruct (decide (k1 = d)) as [->|Hne].
  - rewrite (V1_get_values_long z d v c b d k2) by done.
    erewrite omap_ext_list;
      [|intros p; rewrite V1_get_value_match; reflexivity].
    rewrite push_valid_valid. cbn [app].
    destruct k2 as [|y r']; cbn [prefixes]; csimpl.
    + by destruct (valid INV_ v).
    + rewrite omap_fmap_list. cbn beta.
      destruct (c !! y) as [ch|] eqn:Hy.
      * rewrite (V1_get_values_app y ch) by by apply Hc.
        destruct (valid INV_ v); cbn [option_list app];
          [apply sublist_skip|]; by apply (IH y ch Hy).
      * rewrite (omap_all_None (λ _, valid INV_ INV_)).
        2:{ intros _ _. by apply valid_None. }
        by destruct (valid INV_ v).
  - rewrite omap_all_None; [apply sublist_nil_l|]. intros p _.
    rewrite V1_get_value_nomatch; [by apply valid_None|].
    intros Hd. change (d `prefix_of` k1 ++ p) in Hd. apply Hne.
    destruct Hd as [r Hr]. by apply app_inj_1 in Hr as [? _].
Qed.

(** ** Properties of the first header's operations *)

(** X12: in every trie that a history of valid calls builds with the first
    header, the edge of every node is non-empty and begins with the symbol
    under which the node is filed, which is what the constructor and the
    methods assert. *)
Theorem first_header_filed ops :
  Forall (op_ok INV_) ops → trie_filed (run1 ops).
Proof. apply V1_trie_filed_run. Qed.

(** X13: first header, round trip: after any history of valid calls,
    [add_key key value] makes [get_value key] return [value] and [find_key
    key] return true. *)
Theorem first_header_round_trip ops key value :
  Forall (op_ok INV_) ops → key ≠ [] → value ≠ INV_ →
  get_value1 (add_key1 (run1 ops) key value) key = value ∧
  find_key1 (add_key1 (run1 ops) key value) key = true.
Proof.
  intros Hops Hkey Hv.
  assert (stored1 (add_key1 (run1 ops) key value) key = Some value)
    as [Hg _]%V1_stored_Some.
  { rewrite V1_stored_add_key by (done || by apply V1_trie_filed_run).
    by rewrite decide_True. }
  split; [done|]. unfold V1.find_key. rewrite Hg.
  apply negb_true_iff. by apply Z.eqb_neq.
Qed.

(** X14: first header: after any history of valid calls the trie holds
    exactly the keys inserted and not removed since, each with the value of
    its latest insertion. *)
Theorem first_header_holds_contents ops key :
  Forall (op_ok INV_) ops → key ≠ [] →
  stored1 (run1 ops) key = contents ops !! key.
Proof. apply V1_stored_run. Qed.

(** X15: first header: after any history of valid calls, [remove_key]
    returns the value of a key inserted and not removed since, and leaves
    the trie as it was for any other key. *)
Theorem first_header_remove_key ops key :
  Forall (op_ok INV_) ops → key ≠ [] →
  (∀ v, contents ops !! key = Some v → (remove_key1 (run1 ops) key).1 = v) ∧
  (contents ops !! key = None → (remove_key1 (run1 ops) key).2 = run1 ops).
Proof.
  intros Hops Hkey. pose proof (V1_trie_filed_run ops Hops) as Hf.
  rewrite <- (V1_stored_run ops key) by done. split.
  - intros v. by apply V1_remove_key_held.
  - by apply V1_remove_key_not_held.
Qed.

(** X16: first header: after any history of valid calls, [get_values] only
    appends to the output, and the values of the keys inserted and not
    removed since that are prefixes of the query all occur, in increasing
    order of their length, among what it appends. *)
Theorem first_header_get_values ops q values :
  Forall (op_ok INV_) ops → q ≠ [] →
  get_values1 (run1 ops) q values = values ++ get_values1 (run1 ops) q [] ∧
  omap (λ j, contents ops !! take j q) (seq 1 (length q))
    `sublist_of` get_values1 (run1 ops) q [].
Proof.
  intros Hops Hq. pose proof (V1_trie_filed_run ops Hops) as Hf.
  destruct q as [|a q]; [done|]. unfold V1.get_values.
  cbn [lookup_total list_lookup_total length].
  erewrite list_omap_ext.
  2:{ apply Forall2_same_length_lookup_2; [done|].
      intros i j j' Hj Hj'. simplify_eq. symmetry.
      apply (V1_stored_run ops); [done|].
      apply lookup_seq in Hj as [-> Hi]. done. }
  rewrite <- fmap_S_seq, omap_fmap_list. cbn [take]. unfold V1.stored.
  cbn [lookup_total list_lookup_total].
  destruct (V1.head_ (run1 ops) !! a) as [n|] eqn:Ha.
  - split; [by apply V1_get_values_app with a, Hf|].
    rewrite <- (omap_fmap_list (λ j, take j q)
                  (λ p, valid INV_ (get1 n (a :: p)))).
    rewrite <- prefixes_take.
    apply V1_get_values_complete with a. by apply Hf.
  - split; [by rewrite app_nil_r|].
    rewrite omap_all_None by done. apply sublist_nil_l.
Qed.

(** X17: first header: [get_values] does not compare the symbols of an
    edge with the query.  In a trie that holds a single key, every query
    that begins with the same symbol and is at least as long gets the value
    of that key, whether or not the key is a prefix of the query. *)
Theorem first_header_get_values_single key q value :
  key ≠ [] → value ≠ INV_ → head q = head key → length key ≤ length q →
  get_values1 (add_key1 V1.empty_trie key value) q [] = [value].
Proof.
  destruct key as [|a d]; [done|]. destruct q as [|b k]; [done|].
  intros _ Hv [= ->] Hl. cbn [length] in Hl.
  unfold V1.get_values, V1.add_key, V1.empty_trie.
  cbn [V1.head_ lookup_total list_lookup_total].
  rewrite lookup_insert_eq, lookup_empty. cbn [V1.Node_Add]. unfold V1.Node_new.
  destruct (split_at k (length d)) as (k1 & k2 & -> & Hk1); [lia|].
  rewrite V1_get_values_long by done. unfold push_valid.
  rewrite decide_True by done. destruct k2; [done|]. by rewrite lookup_empty.
Qed.

(** X18: the two headers hold the same keys with the same values after the
    same history of valid calls, provided that the buffers that the second
    header releases in [cut_head] read back unchanged. *)
Theorem headers_agree ops key :
  Forall (op_ok INV_) ops → key ≠ [] →
  stored1 (run1 ops) key = stored INV_ (run INV_ intact ops) key.
Proof.
  intros Hops Hkey. rewrite V1_stored_run by done. symmetry.
  by apply stored_run.
Qed.

(** X19: first header: provided that the value type has at least one bit,
    [find_key] answers true exactly when the trie holds the key or the root
    table has no subtree for the first symbol of the key. *)
Theorem first_header_find_key (t : trie1) key :
  (0 < bits)%Z →
  V1.find_key bits t key = true ↔
    is_Some (V1.stored bits t key) ∨ V1.head_ t !! (key !!! 0) = None.
Proof.
  intros Hb. assert (INV_ ≠ 0%Z) as Hinv.
  { unfold V1.INV_. rewrite Z.ones_equiv.
    pose proof (Z.pow_gt_1 2 bits ltac:(lia)) as [Hp _]. lia. }
  unfold V1.find_key, V1.get_value, V1.stored. rewrite negb_true_iff.
  destruct (V1.head_ t !! (key !!! 0)) as [n|].
  - rewrite Z.eqb_neq. unfold valid.
    destruct (decide (get1 n key = INV_)) as [E|E]; split.
    + done.
    + intros [[? [=]]|[=]].
    + intros _. left. by eexists.
    + done.
  - rewrite Z.eqb_neq. split; [by right|]. intros _. congruence.
Qed.

End FirstHeaderProperties.

(** * The sample instance: the scenario of the specification *)

Example go_trie_get_value :
  get_value INVALID_uint go_trie (key_of "go") = 1%Z
  ∧ get_value INVALID_uint go_trie (key_of "gopher") = 2%Z
  ∧ get_value INVALID_uint go_trie (key_of "golf") = 3%Z
  ∧ get_value INVALID_uint go_trie (key_of "g") = INVALID_uint.
Proof. by vm_compute. Qed.

Example go_trie_get_values :
  get_values INVALID_uint go_trie (key_of "gopher!") [] = [1; 2]%Z
  ∧ get_values INVALID_uint
      (remove_key INVALID_uint go_trie (key_of "go")).2
      (key_of "gopher!") [] = [2]%Z
  ∧ get_value INVALID_uint
      (remove_key INVALID_uint go_trie (key_of "go")).2
      (key_of "gopher") = 2%Z.
Proof. by vm_compute. Qed.

(** After "go" is removed from a trie that holds "go" and "gopher", the
    node of "go" stays where it was, non-terminal and with one child. *)
Example remove_key_leaves_single_child :
  head_ (run INVALID_uint intact
           [OpAdd (key_of "go") 1; OpAdd (key_of "gopher") 2;
            OpRemove (key_of "go")])
    !! "g"%char
  = Some (mkNode (Some {["p"%char := mkNode None (key_of "her") 2]})
            (key_of "o") INVALID_uint).
Proof. by vm_compute. Qed.

Lemma add_key_round_trip_witness :
  key_of "gone" ≠ [] ∧ 4%Z ≠ INVALID_uint ∧
  get_value INVALID_uint
    (add_key INVALID_uint clobbered go_trie (key_of "gone") 4)
    (key_of "gone") = 4%Z ∧
  find_key INVALID_uint
    (add_key INVALID_uint clobbered go_trie (key_of "gone") 4)
    (key_of "gone") = true.
Proof.
  split; [by vm_compute|]. split; [by vm_compute|].
  apply (add_key_round_trip INVALID_uint clobbered go_trie (key_of "gone") 4);
    by vm_compute.
Defined.

Lemma get_values_prefix_enumeration_witness :
  key_of "gopher!" ≠ [] ∧
  (get_values INVALID_uint go_trie (key_of "gopher!") [9%Z]
   = [9%Z] ++ omap (λ j, stored INVALID_uint go_trie
                           (take j (key_of "gopher!")))
                (seq 1 (length (key_of "gopher!")))
   ∧ (head_ go_trie !! (key_of "gopher!" !!! 0) = None →
      get_values INVALID_uint go_trie (key_of "gopher!") [9%Z] = [9%Z])).
Proof.
  split; [by vm_compute|].
  apply (get_values_prefix_enumeration INVALID_uint go_trie
           (key_of "gopher!") [9%Z]).
  by vm_compute.
Defined.

Lemma remove_key_deletes_witness :
  key_of "go" ≠ [] ∧ stored INVALID_uint go_trie (key_of "go") = Some 1%Z ∧
  (get_value INVALID_uint
     (remove_key INVALID_uint go_trie (key_of "go")).2 (key_of "go")
   = INVALID_uint ∧
   find_key INVALID_uint
     (remove_key INVALID_uint go_trie (key_of "go")).2 (key_of "go")
   = false ∧
   ∀ k' v', k' ≠ [] → k' ≠ key_of "go" →
            stored INVALID_uint go_trie k' = Some v' →
            stored INVALID_uint
              (remove_key INVALID_uint go_trie (key_of "go")).2 k' = Some v' ∧
            get_value INVALID_uint
              (remove_key INVALID_uint go_trie (key_of "go")).2 k' = v').
Proof.
  split; [by vm_compute|]. split; [by vm_compute|].
  apply (remove_key_deletes INVALID_uint go_trie (key_of "go") 1);
    by vm_compute.
Defined.

Lemma add_key_update_witness :
  key_of "golf" ≠ [] ∧ 5%Z ≠ INVALID_uint ∧ 6%Z ≠ INVALID_uint ∧ 5%Z ≠ 6%Z ∧
  (get_value INVALID_uint
     (add_key INVALID_uint clobbered
        (add_key INVALID_uint clobbered go_trie (key_of "golf") 5)
        (key_of "golf") 6) (key_of "golf") = 6%Z ∧
   get_value INVALID_uint
     (add_key INVALID_uint clobbered
        (add_key INVALID_uint clobbered go_trie (key_of "golf") 5)
        (key_of "golf") 6) (key_of "golf") ≠ 5%Z ∧
   trie_shape
     (add_key INVALID_uint clobbered
        (add_key INVALID_uint clobbered go_trie (key_of "golf") 5)
        (key_of "golf") 6)
   = trie_shape (add_key INVALID_uint clobbered go_trie (key_of "golf") 5)).
Proof.
  split; [by vm_compute|]. split; [by vm_compute|]. split; [by vm_compute|].
  split; [done|].
  apply (add_key_update INVALID_uint clobbered go_trie (key_of "golf") 5 6);
    by vm_compute.
Defined.

Lemma remove_key_keeps_structure_witness :
  key_of "go" ≠ [] ∧ stored INVALID_uint go_trie (key_of "go") = Some 1%Z ∧
  ((remove_key INVALID_uint go_trie (key_of "go")).1 = 1%Z ∧
   trie_shape (remove_key INVALID_uint go_trie (key_of "go")).2
   = trie_shape go_trie ∧
   get_value INVALID_uint
     (remove_key INVALID_uint go_trie (key_of "go")).2 (key_of "go")
   = INVALID_uint ∧
   ∀ k', k' ≠ [] → k' ≠ key_of "go" →
         get_value INVALID_uint
           (remove_key INVALID_uint go_trie (key_of "go")).2 k'
         = get_value INVALID_uint go_trie k').
Proof.
  split; [by vm_compute|]. split; [by vm_compute|].
  apply (remove_key_keeps_structure INVALID_uint go_trie (key_of "go") 1);
    by vm_compute.
Defined.

(** C2: the trie holds "go", "gopher" and "golf" and its root table has no
    subtree for "x".  For the key "x", which was never inserted,
    [get_value] and [remove_key] answer 0, the value of [false], which is
    not the sentinel, and [find_key] answers true; the trie is unchanged. *)
Theorem absent_root_not_invalid :
  head_ go_trie !! "x"%char = None
  ∧ get_value INVALID_uint go_trie (key_of "x") = 0%Z
  ∧ remove_key INVALID_uint go_trie (key_of "x") = (0%Z, go_trie)
  ∧ find_key INVALID_uint go_trie (key_of "x") = true
  ∧ 0%Z ≠ INVALID_uint.
Proof. by vm_compute. Qed.

(** C5: "gopher" is inserted with the value 2 and then "golf" with the value
    3, on an allocator that overwrites released storage with zeros.  The
    split under the root symbol "g" has the edge "o" and two children; the
    new one under "l" has the edge "f", but the re-parented one under "p"
    has an edge of three zero symbols instead of "her", because [cut_head]
    copies the tail out of the buffer after it has released it.  "gopher" is
    no longer found. *)
Theorem cut_head_copies_released_storage :
  let t := run INVALID_uint clobbered
             [OpAdd (key_of "gopher") 2; OpAdd (key_of "golf") 3] in
  head_ t !! "g"%char
  = Some (Node_Add INVALID_uint clobbered (Some opher_node) (key_of "olf") 3)
  ∧ mismatch (key_of "opher") (key_of "olf") = 1
  ∧ Node_Add INVALID_uint clobbered (Some opher_node) (key_of "olf") 3
    = mkNode
        (Some (<["l"%char := mkNode None (key_of "f") 3]>
                 (<["p"%char :=
                      mkNode None [Ascii.zero; Ascii.zero; Ascii.zero] 2]>
                    ∅)))
        (key_of "o") INVALID_uint
  ∧ get_value INVALID_uint t (key_of "gopher") = INVALID_uint
  ∧ get_value INVALID_uint t (key_of "golf") = 3%Z.
Proof. by vm_compute. Qed.

(** C3: "gopher", "golf" and "go" are inserted in this order with the values
    2, 3 and 1, on an allocator that overwrites released storage with zeros.
    All three keys are inserted and still present, and "go" and "gopher" are
    the ones that are prefixes of the query "gopher!", so the values to
    append are 1 and 2.  [get_values] appends 1 only: the node of "gopher"
    was re-parented when "golf" arrived and [cut_head] copied its edge out of
    the buffer it had just released, so the comparison of the edge with the
    query fails.  With the buffer read back unchanged both values are
    appended, the shorter match first. *)
Theorem get_values_misses_inserted_key :
  let q := key_of "gopher!" in
  omap (λ j, contents split_history !! take j q) (seq 1 (length q))
  = [1; 2]%Z
  ∧ get_values INVALID_uint (run INVALID_uint clobbered split_history) q []
    = [1]%Z
  ∧ get_value INVALID_uint (run INVALID_uint clobbered split_history)
      (key_of "gopher") = INVALID_uint
  ∧ get_values INVALID_uint (run INVALID_uint intact split_history) q []
    = [1; 2]%Z.
Proof. by vm_compute. Qed.

(** C8: on the empty trie, removing the key "hi" twice answers 0 both
    times, not the sentinel; the trie stays empty. *)
Theorem repeated_remove_not_invalid :
  let r1 := remove_key INVALID_uint (empty_trie (K := char)) (key_of "hi") in
  let r2 := remove_key INVALID_uint r1.2 (key_of "hi") in
  r1 = (0%Z, empty_trie) ∧ r2 = (0%Z, empty_trie) ∧ 0%Z ≠ INVALID_uint.
Proof. by vm_compute. Qed.

(** * Further properties on the sample instance *)

Local Ltac history_ok :=
  repeat (apply Forall_cons_2; [vm_compute; try split; discriminate|]);
  apply Forall_nil_2.

Lemma remove_key_not_held_witness :
  stored INVALID_uint go_trie (key_of "gop") = None ∧
  ((remove_key INVALID_uint go_trie (key_of "gop")).2 = go_trie ∧
   (is_Some (head_ go_trie !! (key_of "gop" !!! 0)) →
    (remove_key INVALID_uint go_trie (key_of "gop")).1 = INVALID_uint)).
Proof.
  split; [by vm_compute|].
  apply (remove_key_not_held INVALID_uint go_trie (key_of "gop")).
  by vm_compute.
Defined.

Lemma remove_key_twice_witness :
  key_of "go" ≠ [] ∧
  ((remove_key INVALID_uint
      (remove_key INVALID_uint go_trie (key_of "go")).2 (key_of "go")).2
   = (remove_key INVALID_uint go_trie (key_of "go")).2 ∧
   (is_Some (head_ go_trie !! (key_of "go" !!! 0)) →
    (remove_key INVALID_uint
       (remove_key INVALID_uint go_trie (key_of "go")).2 (key_of "go")).1
    = INVALID_uint)).
Proof.
  split; [by vm_compute|].
  apply (remove_key_twice INVALID_uint go_trie (key_of "go")).
  by vm_compute.
Defined.

Lemma remove_key_after_add_key_witness :
  key_of "gone" ≠ [] ∧
  ((remove_key INVALID_uint
      (add_key INVALID_uint clobbered go_trie (key_of "gone") 4)
      (key_of "gone")).1 = 4%Z ∧
   stored INVALID_uint
     (remove_key INVALID_uint
        (add_key INVALID_uint clobbered go_trie (key_of "gone") 4)
        (key_of "gone")).2 (key_of "gone") = None ∧
   find_key INVALID_uint
     (remove_key INVALID_uint
        (add_key INVALID_uint clobbered go_trie (key_of "gone") 4)
        (key_of "gone")).2 (key_of "gone") = false).
Proof.
  split; [by vm_compute|].
  apply (remove_key_after_add_key INVALID_uint clobbered go_trie
           (key_of "gone") 4).
  by vm_compute.
Defined.

Lemma get_values_bounds_witness :
  key_of "gopher!" ≠ [] ∧
  ∃ new, get_values INVALID_uint go_trie (key_of "gopher!") [9%Z]
         = [9%Z] ++ new ∧
         Forall (λ v, v ≠ INVALID_uint) new ∧
         length new ≤ length (key_of "gopher!").
Proof.
  split; [by vm_compute|].
  apply (get_values_bounds INVALID_uint go_trie (key_of "gopher!") [9%Z]).
  by vm_compute.
Defined.

Lemma get_values_last_witness :
  key_of "gopher" ≠ [] ∧
  stored INVALID_uint go_trie (key_of "gopher") = Some 2%Z ∧
  last (get_values INVALID_uint go_trie (key_of "gopher") []) = Some 2%Z.
Proof.
  split; [by vm_compute|]. split; [by vm_compute|].
  apply (get_values_last INVALID_uint go_trie (key_of "gopher") 2);
    by vm_compute.
Defined.

Lemma get_values_take_witness :
  key_of "gopher!" ≠ [] ∧ 1 ≤ 3 ∧
  get_values INVALID_uint go_trie (take 3 (key_of "gopher!")) []
    `prefix_of` get_values INVALID_uint go_trie (key_of "gopher!") [].
Proof.
  split; [by vm_compute|]. split; [lia|].
  apply (get_values_take INVALID_uint go_trie (key_of "gopher!") 3);
    [by vm_compute|lia].
Defined.

Lemma additions_keep_compact_witness :
  Forall (λ kv : list char * Z, kv.2 ≠ INVALID_uint)
    [(key_of "go", 1%Z); (key_of "gopher", 2%Z); (key_of "golf", 3%Z)] ∧
  trie_compactb INVALID_uint
    (run INVALID_uint clobbered
       (additions
          [(key_of "go", 1%Z); (key_of "gopher", 2%Z); (key_of "golf", 3%Z)]))
  = true.
Proof.
  assert (Forall (λ kv : list char * Z, kv.2 ≠ INVALID_uint)
            [(key_of "go", 1%Z); (key_of "gopher", 2%Z);
             (key_of "golf", 3%Z)]) as Hkvs.
  { repeat (apply Forall_cons_2; [by vm_compute|]). apply Forall_nil_2. }
  split; [done|].
  by apply (additions_keep_compact INVALID_uint clobbered
              [(key_of "go", 1%Z); (key_of "gopher", 2%Z);
               (key_of "golf", 3%Z)]).
Defined.

Lemma add_key_keeps_other_keys_witness :
  (∀ (d : list char) j, j < length d → intact d j = d !!! j) ∧
  key_of "golf" ≠ [] ∧ key_of "gopher" ≠ [] ∧ 3%Z ≠ INVALID_uint ∧
  key_of "gopher" ≠ key_of "golf" ∧
  stored INVALID_uint
    (add_key INVALID_uint intact
       (run INVALID_uint intact [OpAdd (key_of "gopher") 2])
       (key_of "golf") 3) (key_of "gopher")
  = stored INVALID_uint
      (run INVALID_uint intact [OpAdd (key_of "gopher") 2])
      (key_of "gopher").
Proof.
  split; [done|]. split; [by vm_compute|]. split; [by vm_compute|].
  split; [by vm_compute|]. split; [by vm_compute|].
  apply (add_key_keeps_other_keys INVALID_uint intact
           (run INVALID_uint intact [OpAdd (key_of "gopher") 2])
           (key_of "golf") 3 (key_of "gopher")); by vm_compute.
Defined.

Lemma run_holds_contents_witness :
  (∀ (d : list char) j, j < length d → intact d j = d !!! j) ∧
  Forall (op_ok INVALID_uint) split_history ∧ key_of "gopher" ≠ [] ∧
  stored INVALID_uint (run INVALID_uint intact split_history)
    (key_of "gopher")
  = contents split_history !! key_of "gopher".
Proof.
  split; [done|]. split; [history_ok|]. split; [by vm_compute|].
  apply (run_holds_contents INVALID_uint intact split_history
           (key_of "gopher")); [done|history_ok|by vm_compute].
Defined.

Lemma get_values_lists_contents_witness :
  (∀ (d : list char) j, j < length d → intact d j = d !!! j) ∧
  Forall (op_ok INVALID_uint) split_history ∧ key_of "gopher!" ≠ [] ∧
  get_values INVALID_uint (run INVALID_uint intact split_history)
    (key_of "gopher!") [9%Z]
  = [9%Z] ++ omap (λ j, contents split_history !! take j (key_of "gopher!"))
               (seq 1 (length (key_of "gopher!"))).
Proof.
  split; [done|]. split; [history_ok|]. split; [by vm_compute|].
  apply (get_values_lists_contents INVALID_uint intact split_history
           (key_of "gopher!") [9%Z]); [done|history_ok|by vm_compute].
Defined.

Lemma find_key_true_iff_witness :
  INVALID_uint ≠ 0%Z ∧
  (find_key INVALID_uint go_trie (key_of "x") = true ↔
     is_Some (stored INVALID_uint go_trie (key_of "x")) ∨
     head_ go_trie !! (key_of "x" !!! 0) = None).
Proof.
  split; [by vm_compute|].
  apply (find_key_true_iff INVALID_uint go_trie (key_of "x")). by vm_compute.
Defined.

Lemma first_header_filed_witness :
  Forall (op_ok (V1.INV_ 32)) go_history ∧
  V1.trie_filed (V1.run 32 go_history).
Proof.
  split; [history_ok|]. apply (first_header_filed 32 go_history). history_ok.
Defined.

Lemma first_header_round_trip_witness :
  Forall (op_ok (V1.INV_ 32)) go_history ∧ key_of "gone" ≠ [] ∧
  4%Z ≠ V1.INV_ 32 ∧
  (V1.get_value 32 (V1.add_key 32 (V1.run 32 go_history) (key_of "gone") 4)
     (key_of "gone") = 4%Z ∧
   V1.find_key 32 (V1.add_key 32 (V1.run 32 go_history) (key_of "gone") 4)
     (key_of "gone") = true).
Proof.
  split; [history_ok|]. split; [by vm_compute|]. split; [by vm_compute|].
  apply (first_header_round_trip 32 go_history (key_of "gone") 4);
    [history_ok|by vm_compute..].
Defined.

Lemma first_header_holds_contents_witness :
  Forall (op_ok (V1.INV_ 32)) go_history ∧ key_of "gopher" ≠ [] ∧
  V1.stored 32 (V1.run 32 go_history) (key_of "gopher")
  = contents go_history !! key_of "gopher".
Proof.
  split; [history_ok|]. split; [by vm_compute|].
  apply (first_header_holds_contents 32 go_history (key_of "gopher"));
    [history_ok|by vm_compute].
Defined.

Lemma first_header_remove_key_witness :
  Forall (op_ok (V1.INV_ 32)) go_history ∧ key_of "go" ≠ [] ∧
  ((∀ v, contents go_history !! key_of "go" = Some v →
         (V1.remove_key 32 (V1.run 32 go_history) (key_of "go")).1 = v) ∧
   (contents go_history !! key_of "go" = None →
    (V1.remove_key 32 (V1.run 32 go_history) (key_of "go")).2
    = V1.run 32 go_history)).
Proof.
  split; [history_ok|]. split; [by vm_compute|].
  apply (first_header_remove_key 32 go_history (key_of "go"));
    [history_ok|by vm_compute].
Defined.

Lemma first_header_get_values_witness :
  Forall (op_ok (V1.INV_ 32)) go_history ∧ key_of "gopher!" ≠ [] ∧
  (V1.get_values 32 (V1.run 32 go_history) (key_of "gopher!") [9%Z]
   = [9%Z] ++ V1.get_values 32 (V1.run 32 go_history) (key_of "gopher!") [] ∧
   omap (λ j, contents go_history !! take j (key_of "gopher!"))
     (seq 1 (length (key_of "gopher!")))
     `sublist_of`
     V1.get_values 32 (V1.run 32 go_history) (key_of "gopher!") []).
Proof.
  split; [history_ok|]. split; [by vm_compute|].
  apply (first_header_get_values 32 go_history (key_of "gopher!") [9%Z]);
    [history_ok|by vm_compute].
Defined.

Lemma first_header_get_values_single_witness :
  key_of "gopher" ≠ [] ∧ 2%Z ≠ V1.INV_ 32 ∧
  head (key_of "gxxxxx!") = head (key_of "gopher") ∧
  length (key_of "gopher") ≤ length (key_of "gxxxxx!") ∧
  V1.get_values 32 (V1.add_key 32 V1.empty_trie (key_of "gopher") 2)
    (key_of "gxxxxx!") [] = [2%Z].
Proof.
  split; [by vm_compute|]. split; [by vm_compute|]. split; [done|].
  split; [vm_compute; lia|].
  apply (first_header_get_values_single 32 (key_of "gopher")
           (key_of "gxxxxx!") 2); [by vm_compute..|done|vm_compute; lia].
Defined.

Lemma headers_agree_witness :
  Forall (op_ok (V1.INV_ 32)) split_history ∧ key_of "gopher" ≠ [] ∧
  V1.stored 32 (V1.run 32 split_history) (key_of "gopher")
  = stored (V1.INV_ 32) (run (V1.INV_ 32) intact split_history)
      (key_of "gopher").
Proof.
  split; [history_ok|]. split; [by vm_compute|].
  apply (headers_agree 32 split_history (key_of "gopher"));
    [history_ok|by vm_compute].
Defined.

Lemma first_header_find_key_witness :
  (0 < 32)%Z ∧
  (V1.find_key 32 (V1.run 32 go_history) (key_of "x") = true ↔
     is_Some (V1.stored 32 (V1.run 32 go_history) (key_of "x")) ∨
     V1.head_ (V1.run 32 go_history) !! (key_of "x" !!! 0) = None).
Proof.
  split; [done|].
  by apply (first_header_find_key 32 (V1.run 32 go_history) (key_of "x")).
Defined.
